(** * Watts-Strogatz generator of netdiffuseR: [src/rgraph_ws.cpp]

    A shallow embedding of the two exported functions of the file,
    [ring_lattice] and [rewire_graph_cpp], and the properties of the
    specification that are about them.

    Modelling conventions.
    - C++ [int] values are [Z].  The product [n*n] of line 113 leaves the
      range of [int] from 46341 vertices on; it is modelled as the machine
      computes it, modulo 2^32 ([int_mul]).  The other [int] operations
      ([n-1], [i+j], [++wcount]) stay in range for the sizes that fit in
      memory and are plain [Z] operations.
    - [arma::sp_mat] is a finite map from (row, column) to the stored value,
      with the two dimensions next to it.  A cell that is not stored reads 0
      and writing 0 to a cell removes it, as Armadillo does.
    - Stored values are edge multiplicities.  They are modelled by [Z]: the
      [double]s that the two functions produce from such inputs are sums of
      integers, which [double] arithmetic computes exactly below 2^53.
    - R's generator is the sequence of values that the successive calls of
      [unif_rand()] return, a function [nat -> Q], together with the number
      of values consumed so far, which is threaded through the code.  The
      probability [p] is a rational as well, and the product
      [(n-1)*unif_rand()] is the exact one. *)

From Stdlib Require Import ZArith QArith Qround Lia String.
From stdpp Require Import base option list list_numbers gmap.

Local Open Scope Z_scope.

(** ** Sparse matrices *)

Record sp_mat := SpMat { n_rows : Z; n_cols : Z; values : gmap (Z * Z) Z }.

(** [arma::sp_mat graph(n,n)] *)
Definition sp_zeros (r c : Z) : sp_mat := SpMat r c ∅.

(** [m.at(r,c)] read *)
Definition at_ (m : sp_mat) (r c : Z) : Z := default 0 (values m !! (r, c)).

(** [m.at(r,c) = w] *)
Definition set_at (m : sp_mat) (r c w : Z) : sp_mat :=
  SpMat (n_rows m) (n_cols m)
        (if w =? 0 then delete (r, c) (values m) else <[(r, c) := w]> (values m)).

(** [m.at(r,c) += w] *)
Definition add_at (m : sp_mat) (r c w : Z) : sp_mat := set_at m r c (at_ m r c + w).

(** Sums over index ranges, used to measure a matrix. *)
Definition sumZ {A : Type} (f : A → Z) (l : list A) : Z := foldr (λ x acc, f x + acc) 0 l.

Definition ind (b : bool) : Z := if b then 1 else 0.

(** Sum of the entries of row [r] (weighted out-degree). *)
Definition row_sum (g : sp_mat) (r : Z) : Z := sumZ (λ c, at_ g r c) (seqZ 0 (n_cols g)).

(** Number of non-zero entries of row [r] (out-degree). *)
Definition out_degree (g : sp_mat) (r : Z) : Z :=
  sumZ (λ c, ind (negb (at_ g r c =? 0))) (seqZ 0 (n_cols g)).

(** Number of non-zero entries of the matrix. *)
Definition n_nonzero (g : sp_mat) : Z := sumZ (out_degree g) (seqZ 0 (n_rows g)).

(** Sum of all the entries of the matrix, [arma::accu]. *)
Definition accu (g : sp_mat) : Z := map_fold (λ _ w s, w + s) 0 (values g).

(** ** [ring_lattice] (lines 22-45) *)

(** The outcome of an exported function: a value, or [Rcpp::stop]. *)
Inductive result (A : Type) : Type :=
| Value (a : A)
| Stop (msg : string).
Arguments Value {A} a.
Arguments Stop {A} msg.

(** Lines 37-38: [int l = i+j; if (l >= n) l = l - n;] *)
Definition next_neighbor (n i j : Z) : Z :=
  let l := i + j in if n <=? l then l - n else l.

(** Lines 36-41, the body of the inner loop. *)
Definition connect (undirected : bool) (n i : Z) (graph : sp_mat) (j : Z) : sp_mat :=
  let l := next_neighbor n i j in
  let graph := add_at graph i l 1 in
  if undirected then add_at graph l i 1 else graph.

(** Line 31: [(int) floor((double) k/2.0)] *)
Definition half (k : Z) : Z := Qfloor (inject_Z k / 2).

(** Lines 30-31: the degree that the loops use. *)
Definition adjust_k (k : Z) (undirected : bool) : Z :=
  if undirected then (if 1 <? k then half k else k) else k.

(** Lines 34-43: the two nested loops. *)
Definition ring_loops (undirected : bool) (n k : Z) (graph : sp_mat) : sp_mat :=
  foldl (λ graph i, foldl (connect undirected n i) graph (seqZ 1 k)) graph (seqZ 0 n).

Definition ring_lattice (n k : Z) (undirected : bool) : result sp_mat :=
  if n - 1 <? k then Stop "k can be at most n - 1"
  else
    let graph := sp_zeros n n in
    let k := adjust_k k undirected in
    Value (ring_loops undirected n k graph).

(** The distance from [r] to [c] going forward around a ring of [n]. *)
Definition offset (n r c : Z) : Z := if r <=? c then c - r else c - r + n.

(** [(r, c)] is a cell that the loops of a directed lattice of degree [k]
    write: [c] is one of the [k] successors of [r]. *)
Definition on_ring (n k r c : Z) : bool :=
  bool_decide (0 ≤ r < n ∧ 0 ≤ c < n ∧ 1 ≤ offset n r c ≤ k).

(** What one pass of the inner loop body adds to cell [(r, c)]. *)
Definition hits (undirected : bool) (n i j r c : Z) : Z :=
  ind (bool_decide ((i, next_neighbor n i j) = (r, c))) +
  (if undirected then ind (bool_decide ((next_neighbor n i j, i) = (r, c))) else 0).


(** ** [rewire_graph_cpp] (lines 64-141) *)

(** Modelled from the spec: [sparse_indexes] is declared in
    [netdiffuser_extra.h], a header of the package that [src/] does not
    contain.  It
    lists the (row, column) pairs of the non-zero entries of a matrix, "a
    fixed candidate list (row, col) pairs".  The order taken here is the
    column-major order in which Armadillo stores the entries; the lemmas
    about the rewiring loop hold for any list of candidates. *)
Definition sparse_indexes (g : sp_mat) : list (Z * Z) :=
  c ← seqZ 0 (n_cols g);
  r ← seqZ 0 (n_rows g);
  if at_ g r c =? 0 then [] else [(r, c)].

(** A value brought back to the range of a 32-bit [int], as two's
    complement arithmetic does. *)
Definition int_wrap (z : Z) : Z := (z + 2 ^ 31) mod 2 ^ 32 - 2 ^ 31.

(** The product of two [int]s. *)
Definition int_mul (a b : Z) : Z := int_wrap (a * b).

(** The number of repeats at which the test [++wcount >= n*n] of line 113
    first holds: the product when it is positive, and 1 when it has wrapped
    to zero or below. *)
Definition repeat_limit (n : Z) : Z := Z.max 1 (int_mul n n).

(** The local variables of the search loop when it ends. *)
Record search_end := SearchEnd {
  end_newk : Z;
  end_conditions : bool;
  end_wcount : Z;
  end_picked : list bool;
  end_pos : nat
}.

Section rewire.
(** The values returned by the successive calls of [unif_rand()]. *)
Variable unif : nat → Q.
Variables (p : Q) (both_ends self multiple undirected : bool).
(** Line 72: [int n = graph.n_cols;] *)
Variable n : Z.

(** A call of [unif_rand()] when [pos] values have been consumed. *)
Definition unif_rand (pos : nat) : Q * nat := (unif pos, S pos).

(** Lines 99 and 108: [floor( (n-1)*unif_rand() )], on the value [u] that
    the call returns ... *)
Definition scale (u : Q) : Z := Qfloor (inject_Z (n - 1) * u).

(** ... and with the call. *)
Definition draw_vertex (pos : nat) : Z * nat :=
  let '(u, pos) := unif_rand pos in (scale u, pos).

(** [picked.at(newk)]; [at] does not check bounds, and a read out of
    bounds, which the draws of a generator on [0,1) never cause, is taken
    to be 0 here. *)
Definition picked_at (picked : list bool) (newk : Z) : bool :=
  default false (picked !! Z.to_nat newk).

(** Lines 107-126: the [while (conditions)] loop, at most [fuel]
    iterations of it.  [None] stands for a loop that is still running
    after [fuel] iterations.  The limit [n*n] of line 113 is the [int]
    product, [int_mul n n]. *)
Fixpoint search (fuel : nat) (newgraph : sp_mat) (newj : Z)
         (wcount : Z) (picked : list bool) (pos : nat) : option search_end :=
  match fuel with
  | O => None
  | S fuel =>
    let '(newk, pos) := draw_vertex pos in
    if picked_at picked newk then
      let wcount := wcount + 1 in
      if int_mul n n <=? wcount then Some (SearchEnd newk true wcount picked pos)
      else search fuel newgraph newj wcount picked pos
    else
      let picked := <[Z.to_nat newk := true]> picked in
      if undirected && (newj <? newk) then
        search fuel newgraph newj wcount picked pos
      else if negb self && (newj =? newk) then
        search fuel newgraph newj wcount picked pos
      else if negb multiple && negb (at_ newgraph newj newk =? 0) then
        search fuel newgraph newj wcount picked pos
      else Some (SearchEnd newk false wcount picked pos)
  end.

(** A number of iterations that the loop never exceeds (lemma
    [search_terminates]): at most [n] fresh values and [n*n] repeats, the
    limit of line 113 being at most [n*n]. *)
Definition search_fuel : nat := S (Z.to_nat (n * n + n)).

(** Lines 95-126: the new source and the search for the new target. *)
Definition new_ends (newgraph : sp_mat) (j : Z) (pos : nat) : option (Z * search_end) :=
  let '(newj, pos) := if both_ends then draw_vertex pos else (j, pos) in
  e ← search search_fuel newgraph newj 0 (replicate (Z.to_nat n) false) pos;
  Some (newj, e).

(** Lines 128-135: the weight of [(j,k)] moves to [(newj,newk)]. *)
Definition move_edge (newgraph : sp_mat) (j k newj newk : Z) : sp_mat :=
  let w := at_ newgraph j k in
  let newgraph := set_at newgraph j k 0 in
  let newgraph := if undirected then set_at newgraph k j 0 else newgraph in
  let newgraph := add_at newgraph newj newk w in
  if undirected then add_at newgraph newk newj w else newgraph.

(** Lines 85-135: the body of the loop over the candidates, on the working
    copy and the position in the random sequence.  (The interrupt check of
    lines 82-83 is left out: no interrupt is modelled.) *)
Definition rewire_edge (jk : Z * Z) (st : sp_mat * nat) : option (sp_mat * nat) :=
  let '(newgraph, pos) := st in
  let '(u, pos) := unif_rand pos in
  if negb (Qle_bool u p) then Some (newgraph, pos)
  else
    let '(j, k) := jk in
    if undirected && (j <? k) then Some (newgraph, pos)
    else
      '(newj, e) ← new_ends newgraph j pos;
      Some (move_edge newgraph j k newj (end_newk e), end_pos e).

(** Lines 79-137: the loop over the candidates. *)
Fixpoint rewire_loop (indexes : list (Z * Z)) (st : sp_mat * nat) : option (sp_mat * nat) :=
  match indexes with
  | [] => Some st
  | jk :: indexes => st ← rewire_edge jk st; rewire_loop indexes st
  end.

(** The three tests of lines 117-123 on a fresh candidate [newk]. *)
Definition acceptable (newgraph : sp_mat) (newj newk : Z) : bool :=
  negb (undirected && (newj <? newk)) &&
  negb (negb self && (newj =? newk)) &&
  negb (negb multiple && negb (at_ newgraph newj newk =? 0)).

(** Whether the search made for candidate [jk], if one is made, ended by
    the [break] of line 113. *)
Definition broke_out (jk : Z * Z) (st : sp_mat * nat) : bool :=
  let '(newgraph, pos) := st in
  let '(u, pos) := unif_rand pos in
  if negb (Qle_bool u p) then false
  else
    let '(j, k) := jk in
    if undirected && (j <? k) then false
    else match new_ends newgraph j pos with
         | Some (_, e) => end_conditions e
         | None => false
         end.

(** No search of the run over [indexes] ended by the [break]. *)
Fixpoint no_break (indexes : list (Z * Z)) (st : sp_mat * nat) : bool :=
  match indexes with
  | [] => true
  | jk :: indexes =>
    negb (broke_out jk st) &&
    match rewire_edge jk st with
    | Some st => no_break indexes st
    | None => false
    end
  end.
End rewire.

(** The exported function.  Between [GetRNGstate()] and [PutRNGstate()]
    the generator is read from its first value on; the result is the new
    graph and the number of values taken from the generator.  [None] would
    be a call that does not return. *)
Definition rewire_graph_cpp (unif : nat → Q) (graph : sp_mat) (p : Q)
           (both_ends self multiple undirected : bool) : option (sp_mat * nat) :=
  let newgraph := graph in
  let n := n_cols graph in
  let indexes := sparse_indexes graph in
  rewire_loop unif p both_ends self multiple undirected n indexes (newgraph, 0%nat).

(** The number of values that a search has not tried yet. *)
Fixpoint unpicked (picked : list bool) : nat :=
  match picked with
  | [] => 0
  | b :: picked => (if b then 0 else 1) + unpicked picked
  end.

(** What the search of lines 103-126 ends with, when it starts at position
    [pos] with [wcount] repeats counted and the tried values [picked]: it
    has drawn at least once; [newk] is the last value drawn; every value
    drawn before it fails a test; [conditions] tells whether [newk] passes
    them; the loop ended by the [break] exactly when the count of repeats
    reached [repeat_limit n]; and each draw either marked a new value as
    tried or counted a repeat. *)
Definition search_post (unif : nat → Q) (self multiple undirected : bool) (n : Z)
           (newgraph : sp_mat) (newj : Z)
           (wcount : Z) (picked : list bool) (pos : nat) (e : search_end) : Prop :=
  (pos < end_pos e)%nat ∧
  end_newk e = scale n (unif (pred (end_pos e))) ∧
  (∀ i, (pos ≤ i < pred (end_pos e))%nat →
        acceptable self multiple undirected newgraph newj (scale n (unif i)) = false) ∧
  acceptable self multiple undirected newgraph newj (end_newk e) = negb (end_conditions e) ∧
  wcount ≤ end_wcount e ∧
  (if end_conditions e then end_wcount e = repeat_limit n
   else end_wcount e < repeat_limit n) ∧
  length (end_picked e) = Z.to_nat n ∧
  (unpicked (end_picked e) ≤ unpicked picked)%nat ∧
  Z.of_nat (end_pos e - pos) =
    Z.of_nat (unpicked picked - unpicked (end_picked e)) + (end_wcount e - wcount).

(** The values of a generator lie in [[0,1)]. *)
Definition unit_interval (unif : nat → Q) : Prop := ∀ i, (0 <= unif i)%Q ∧ (unif i < 1)%Q.

Definition symmetric (g : sp_mat) : Prop := ∀ i j, at_ g i j = at_ g j i.

Definition zero_diagonal (g : sp_mat) : Prop := ∀ i, at_ g i i = 0.

(** The complete directed graph on three vertices. *)
Definition complete3 : sp_mat :=
  SpMat 3 3 (list_to_map [((0,1),1); ((0,2),1); ((1,0),1); ((1,2),1); ((2,0),1); ((2,1),1)]).

(** The generator that returns 0, 1/3, 2/3, 0, 1/3, ... *)
Definition thirds (i : nat) : Q := (Z.of_nat (i mod 3) # 3)%Q.

(** The [n] by [n] matrix whose only entry is the edge (0,1), of weight 1. *)
Definition one_edge (n : Z) : sp_mat := SpMat n n {[ (0, 1) := 1 ]}.

(** The 3 by 3 matrix whose only entry is the loop (1,1), of weight 1. *)
Definition one_loop : sp_mat := SpMat 3 3 {[ (1, 1) := 1 ]}.

(** The 3 by 3 symmetric matrix of the single undirected edge between 0 and 1. *)
Definition mutual01 : sp_mat := set_at (set_at (sp_zeros 3 3) 1 0 1) 0 1 1.

(** A generator that runs through the multiples of 1/13 below 1. *)
Definition thirteenths (i : nat) : Q := (Z.of_nat (i * 7 mod 13) # 13)%Q.


(** ** Further measures and invariants *)

(** Sum of the entries of column [c] (weighted in-degree). *)
Definition col_sum (g : sp_mat) (c : Z) : Z := sumZ (λ r, at_ g r c) (seqZ 0 (n_rows g)).

(** Every stored entry lies inside the matrix and is not zero. *)
Definition well_formed (g : sp_mat) : Prop :=
  map_Forall (λ rc w, 0 ≤ rc.1 < n_rows g ∧ 0 ≤ rc.2 < n_cols g ∧ w ≠ 0) (values g).

(** No entry is negative. *)
Definition nonnegative (g : sp_mat) : Prop := ∀ r c, 0 ≤ at_ g r c.

(** Every entry is 0 or 1: no multiple edge. *)
Definition simple (g : sp_mat) : Prop := ∀ r c, at_ g r c = 0 ∨ at_ g r c = 1.

(** The 4 by 4 symmetric matrix of the single undirected edge between 2 and 3. *)
Definition mutual23 : sp_mat := set_at (set_at (sp_zeros 4 4) 3 2 1) 2 3 1.

(** ** Basic facts *)

Lemma at_set_at m r c w r' c' :
  at_ (set_at m r c w) r' c' = if decide ((r, c) = (r', c')) then w else at_ m r' c'.
Proof.
  unfold at_, set_at; simpl.
  destruct (Z.eqb_spec w 0) as [->|Hw]; case_decide as E.
  - by rewrite E, lookup_delete_eq.
  - by rewrite lookup_delete_ne.
  - by rewrite E, lookup_insert_eq.
  - by rewrite lookup_insert_ne.
Qed.

Lemma at_add_at m r c w r' c' :
  at_ (add_at m r c w) r' c' =
  at_ m r' c' + (if decide ((r, c) = (r', c')) then w else 0).
Proof.
  unfold add_at. rewrite at_set_at. case_decide as E; [|lia].
  by inversion E; subst.
Qed.

Lemma n_cols_set_at m r c w : n_cols (set_at m r c w) = n_cols m.
Proof. done. Qed.

Lemma n_rows_set_at m r c w : n_rows (set_at m r c w) = n_rows m.
Proof. done. Qed.

Lemma n_cols_add_at m r c w : n_cols (add_at m r c w) = n_cols m.
Proof. done. Qed.

Lemma n_rows_add_at m r c w : n_rows (add_at m r c w) = n_rows m.
Proof. done. Qed.

Lemma at_sp_zeros a b r c : at_ (sp_zeros a b) r c = 0.
Proof. done. Qed.

Section sums.
Context {A : Type}.
Implicit Types (f g : A → Z) (l : list A).

Lemma sumZ_app f l1 l2 : sumZ f (l1 ++ l2) = sumZ f l1 + sumZ f l2.
Proof. induction l1 as [|x l1 IH]; simpl; [done|]. rewrite IH. lia. Qed.

Lemma sumZ_ext f g l : (∀ x, x ∈ l → f x = g x) → sumZ f l = sumZ g l.
Proof.
  induction l as [|x l IH]; intros H; simpl; [done|].
  rewrite (H x), IH; [done| |]; intros; try apply H; set_solver.
Qed.

Lemma sumZ_plus f g l : sumZ (λ x, f x + g x) l = sumZ f l + sumZ g l.
Proof. induction l as [|x l IH]; simpl; [done|]. rewrite IH. lia. Qed.

Lemma sumZ_const (k : Z) l : sumZ (λ _, k) l = k * Z.of_nat (length l).
Proof. induction l as [|x l IH]; simpl length; simpl sumZ; [lia|]. rewrite IH. lia. Qed.

Lemma sumZ_zero f l : (∀ x, x ∈ l → f x = 0) → sumZ f l = 0.
Proof.
  intros H. rewrite (sumZ_ext f (λ _, 0)) by done. rewrite sumZ_const. lia.
Qed.
End sums.

(** The number of elements of [seqZ a len] in the interval [[lo, hi)]. *)
Lemma sumZ_interval lo hi a (len : nat) :
  sumZ (λ x, ind (bool_decide (lo ≤ x < hi))) (seqZ a (Z.of_nat len)) =
  Z.max 0 (Z.min (a + Z.of_nat len) hi - Z.max a lo).
Proof.
  induction len as [|len IH].
  - rewrite seqZ_nil by lia. simpl. lia.
  - rewrite seqZ_S, sumZ_app, IH. simpl. unfold ind.
    case_bool_decide; lia.
Qed.

(** A sum with a single non-zero term. *)
Lemma sumZ_single (y v : Z) a len :
  sumZ (λ x, if decide (x = y) then v else 0) (seqZ a len) =
  if decide (a ≤ y < a + len) then v else 0.
Proof.
  destruct (decide (0 ≤ len)) as [Hlen|Hlen].
  2:{ rewrite seqZ_nil by lia. simpl. case_decide; [lia|done]. }
  rewrite <- (Z2Nat.id len) by done. generalize (Z.to_nat len) as m. clear.
  induction m as [|m IH].
  - rewrite seqZ_nil by lia. simpl. case_decide; [lia|done].
  - rewrite seqZ_S, sumZ_app, IH. simpl.
    repeat case_decide; lia.
Qed.

(** ** The cells that the loops of [ring_lattice] write *)

Lemma at_connect und n i g j r c :
  at_ (connect und n i g j) r c = at_ g r c + hits und n i j r c.
Proof.
  unfold connect, hits, ind. destruct und; rewrite ?at_add_at;
    repeat case_decide; repeat case_bool_decide; congruence || lia.
Qed.

Lemma at_inner_loop und n i js : ∀ g r c,
  at_ (foldl (connect und n i) g js) r c =
  at_ g r c + sumZ (λ j, hits und n i j r c) js.
Proof.
  induction js as [|j js IH]; intros g r c; simpl; [lia|].
  rewrite IH, at_connect. lia.
Qed.

Lemma at_outer_loop und n js rows : ∀ g r c,
  at_ (foldl (λ g i, foldl (connect und n i) g js) g rows) r c =
  at_ g r c + sumZ (λ i, sumZ (λ j, hits und n i j r c) js) rows.
Proof.
  induction rows as [|i rows IH]; intros g r c; simpl; [lia|].
  rewrite IH, at_inner_loop. lia.
Qed.

Lemma dims_inner_loop und n i js : ∀ g,
  n_rows (foldl (connect und n i) g js) = n_rows g ∧
  n_cols (foldl (connect und n i) g js) = n_cols g.
Proof.
  induction js as [|j js IH]; intros g; simpl; [done|].
  destruct (IH (connect und n i g j)) as [-> ->]. unfold connect. by destruct und.
Qed.

Lemma dims_ring_loops und n k g :
  n_rows (ring_loops und n k g) = n_rows g ∧ n_cols (ring_loops und n k g) = n_cols g.
Proof.
  unfold ring_loops. generalize (seqZ 0 n) as rows. intros rows. revert g.
  induction rows as [|i rows IH]; intros g; simpl; [done|].
  destruct (IH (foldl (connect und n i) g (seqZ 1 k))) as [-> ->].
  apply dims_inner_loop.
Qed.

(** Among the offsets [1..k], exactly [offset n i t] leads from [i] to [t]. *)
Lemma next_neighbor_offset n i j t :
  0 ≤ i < n → 1 ≤ j ≤ n - 1 →
  next_neighbor n i j = t ↔ (0 ≤ t < n ∧ j = offset n i t).
Proof.
  intros Hi Hj. unfold next_neighbor, offset.
  destruct (Z.leb_spec n (i + j)), (Z.leb_spec i t); lia.
Qed.

Lemma sum_next_neighbor n k i t :
  0 ≤ i < n → 0 ≤ k ≤ n - 1 →
  sumZ (λ j, ind (bool_decide (next_neighbor n i j = t))) (seqZ 1 k) =
  ind (bool_decide (0 ≤ t < n ∧ 1 ≤ offset n i t ≤ k)).
Proof.
  intros Hi Hk.
  rewrite (sumZ_ext _ (λ j, if decide (j = offset n i t)
                            then ind (bool_decide (0 ≤ t < n)) else 0)).
  - rewrite sumZ_single. unfold ind.
    repeat case_decide; repeat case_bool_decide; lia.
  - intros j Hj%elem_of_seqZ. unfold ind.
    pose proof (next_neighbor_offset n i j t).
    repeat case_decide; repeat case_bool_decide; lia.
Qed.

(** The value of every cell after the two loops. *)
Lemma at_ring_loops und n k g r c :
  0 ≤ k ≤ n - 1 →
  at_ (ring_loops und n k g) r c =
  at_ g r c + ind (on_ring n k r c) + (if und then ind (on_ring n k c r) else 0).
Proof.
  intros Hk. unfold ring_loops. rewrite at_outer_loop.
  rewrite (sumZ_ext _ (λ i,
      (if decide (i = r) then ind (bool_decide (0 ≤ c < n ∧ 1 ≤ offset n r c ≤ k)) else 0) +
      (if decide (i = c) then
         (if und then ind (bool_decide (0 ≤ r < n ∧ 1 ≤ offset n c r ≤ k)) else 0)
       else 0))).
  - rewrite sumZ_plus, !sumZ_single. unfold on_ring, ind.
    destruct und; repeat case_decide; repeat case_bool_decide; lia.
  - intros i Hi%elem_of_seqZ. unfold hits. rewrite sumZ_plus.
    f_equal.
    + case_decide as E.
      * subst i. rewrite <- sum_next_neighbor by lia.
        apply sumZ_ext. intros j _. unfold ind.
        repeat case_bool_decide; congruence.
      * apply sumZ_zero. intros j _. unfold ind. case_bool_decide; congruence.
    + destruct und.
      * case_decide as E.
        -- subst i. rewrite <- sum_next_neighbor by lia.
           apply sumZ_ext. intros j _. unfold ind.
           repeat case_bool_decide; congruence.
        -- apply sumZ_zero. intros j _. unfold ind. case_bool_decide; congruence.
      * rewrite sumZ_zero by done. by case_decide.
Qed.

(** ** Counting the cells of a row *)

Lemma half_div k : half k = k / 2.
Proof. unfold half, Qfloor. simpl. f_equal. lia. Qed.

Lemma offset_mod n r c :
  0 ≤ r < n → 0 ≤ c < n → offset n r c = (c - r) mod n.
Proof.
  intros Hr Hc. unfold offset. destruct (Z.leb_spec r c).
  - symmetry. apply Z.mod_small. lia.
  - apply (Z.mod_unique _ _ (-1)); lia.
Qed.

Lemma next_neighbor_mod n i j :
  0 ≤ i < n → 0 ≤ j < n → next_neighbor n i j = (i + j) mod n.
Proof.
  intros Hi Hj. unfold next_neighbor. simpl. destruct (Z.leb_spec n (i + j)).
  - apply (Z.mod_unique _ _ 1); lia.
  - symmetry. apply Z.mod_small. lia.
Qed.

(** A vertex has [k] successors on the ring ... *)
Lemma count_successors n k r :
  0 ≤ r < n → 0 ≤ k ≤ n - 1 →
  sumZ (λ c, ind (on_ring n k r c)) (seqZ 0 n) = k.
Proof.
  intros Hr Hk.
  rewrite (sumZ_ext _ (λ c, ind (bool_decide (r + 1 ≤ c < r + k + 1)) +
                            ind (bool_decide (r - n + 1 ≤ c < r - n + k + 1)))).
  - rewrite sumZ_plus.
    replace (seqZ 0 n) with (seqZ 0 (Z.of_nat (Z.to_nat n))) by (f_equal; lia).
    rewrite !sumZ_interval. lia.
  - intros c Hc%elem_of_seqZ. unfold on_ring, offset, ind.
    destruct (Z.leb_spec r c); repeat case_bool_decide; lia.
Qed.

(** ... and [k] predecessors. *)
Lemma count_predecessors n k r :
  0 ≤ r < n → 0 ≤ k ≤ n - 1 →
  sumZ (λ c, ind (on_ring n k c r)) (seqZ 0 n) = k.
Proof.
  intros Hr Hk.
  rewrite (sumZ_ext _ (λ c, ind (bool_decide (r - k ≤ c < r)) +
                            ind (bool_decide (r + n - k ≤ c < r + n)))).
  - rewrite sumZ_plus.
    replace (seqZ 0 n) with (seqZ 0 (Z.of_nat (Z.to_nat n))) by (f_equal; lia).
    rewrite !sumZ_interval. lia.
  - intros c Hc%elem_of_seqZ. unfold on_ring, offset, ind.
    destruct (Z.leb_spec c r); repeat case_bool_decide; lia.
Qed.

(** When [2k < n] no cell is both a successor and a predecessor cell. *)
Lemma on_ring_exclusive n k r c :
  2 * k < n → on_ring n k r c = true → on_ring n k c r = false.
Proof.
  unfold on_ring, offset. intros Hk H%bool_decide_eq_true.
  apply bool_decide_eq_false. intros H'.
  destruct (Z.leb_spec r c), (Z.leb_spec c r); lia.
Qed.

Lemma on_ring_diag n k i : on_ring n k i i = false.
Proof.
  unfold on_ring, offset. apply bool_decide_eq_false.
  destruct (Z.leb_spec i i); lia.
Qed.

Lemma adjust_k_bounds n k und :
  0 ≤ k ≤ n - 1 → 0 ≤ adjust_k k und ≤ n - 1.
Proof.
  intros Hk. unfold adjust_k. destruct und; [|done].
  destruct (Z.ltb_spec 1 k); [|done]. rewrite half_div.
  pose proof (Z.div_pos k 2). pose proof (Z.div_le_upper_bound k 2 k). lia.
Qed.

Lemma ring_lattice_value n k und :
  k ≤ n - 1 →
  ring_lattice n k und = Value (ring_loops und n (adjust_k k und) (sp_zeros n n)).
Proof. intros Hk. unfold ring_lattice. by destruct (Z.ltb_spec (n - 1) k); [lia|]. Qed.

(** ** The random draws *)

Lemma scale_bounds n u :
  (0 <= u)%Q → (u < 1)%Q → 1 ≤ n → 0 ≤ scale n u ≤ Z.max 0 (n - 2).
Proof.
  destruct u as [a b]. unfold Qle, Qlt, scale, Qfloor. simpl.
  change (Z.pos (1 * b)) with (Z.pos b).
  intros Ha Hb Hn. split.
  - apply Z.div_pos; nia.
  - destruct (decide (n = 1)) as [->|Hne].
    + simpl. rewrite Z.div_0_l by lia. lia.
    + assert (((n - 1) * a) `div` Z.pos b < n - 1); [|lia].
      apply Z.div_lt_upper_bound; nia.
Qed.

Lemma draw_vertex_eq unif n pos :
  draw_vertex unif n pos = (scale n (unif pos), S pos).
Proof. done. Qed.

Lemma draw_vertex_range unif n pos :
  unit_interval unif → 1 ≤ n → 0 ≤ (draw_vertex unif n pos).1 < n.
Proof.
  intros Hu Hn. rewrite draw_vertex_eq. simpl.
  destruct (Hu pos) as [H0 H1]. pose proof (scale_bounds n _ H0 H1 Hn). lia.
Qed.

(** ** The search for the new target *)

Lemma unpicked_insert picked i :
  picked !! i = Some false → unpicked picked = S (unpicked (<[i:=true]> picked)).
Proof.
  revert i. induction picked as [|b picked IH]; intros [|i] H; simplify_eq/=; [done|].
  rewrite (IH i H). lia.
Qed.

Lemma unpicked_replicate m : unpicked (replicate m false) = m.
Proof. induction m as [|m IH]; simpl; [done|]. by rewrite IH. Qed.

Lemma picked_at_replicate m v : picked_at (replicate m false) v = false.
Proof.
  unfold picked_at. destruct (replicate m false !! Z.to_nat v) as [b|] eqn:E; [|done].
  by apply lookup_replicate in E as [-> _].
Qed.

Lemma picked_at_insert picked newk v :
  0 ≤ newk → 0 ≤ v → (Z.to_nat newk < length picked)%nat →
  picked_at (<[Z.to_nat newk := true]> picked) v =
  if decide (v = newk) then true else picked_at picked v.
Proof.
  intros Hk Hv Hlen. unfold picked_at. case_decide as E.
  - subst v. by rewrite list_lookup_insert_eq.
  - rewrite list_lookup_insert_ne by lia. done.
Qed.

Lemma picked_at_false picked v :
  (Z.to_nat v < length picked)%nat → picked_at picked v = false →
  picked !! Z.to_nat v = Some false.
Proof.
  intros Hlen. unfold picked_at.
  destruct (lookup_lt_is_Some_2 picked _ Hlen) as [b ->]. simpl. by intros ->.
Qed.


(** ... and never above the exact product. *)
Lemma repeat_limit_bounds n : 1 ≤ n → 1 ≤ repeat_limit n ≤ n * n.
Proof.
  intros Hn. unfold repeat_limit, int_mul, int_wrap.
  pose proof (Z.mod_pos_bound (n * n + 2 ^ 31) (2 ^ 32)).
  pose proof (Z.mod_le (n * n + 2 ^ 31) (2 ^ 32)).
  nia.
Qed.

(** The test of line 113, on a count that has not reached the limit. *)
Lemma repeat_test n wcount :
  0 ≤ wcount →
  (int_mul n n <=? wcount + 1) = (repeat_limit n <=? wcount + 1).
Proof.
  intros Hw. unfold repeat_limit.
  destruct (Z.leb_spec (int_mul n n) (wcount + 1)),
           (Z.leb_spec (Z.max 1 (int_mul n n)) (wcount + 1)); lia.
Qed.


(** One iteration of the loop: the three tests of lines 117-123 together
    are [acceptable]. *)
Lemma search_S unif self multiple undirected n fuel newgraph newj wcount picked pos :
  search unif self multiple undirected n (S fuel) newgraph newj wcount picked pos =
  let newk := scale n (unif pos) in
  if picked_at picked newk then
    if int_mul n n <=? wcount + 1
    then Some (SearchEnd newk true (wcount + 1) picked (S pos))
    else search unif self multiple undirected n fuel newgraph newj (wcount + 1) picked (S pos)
  else
    if acceptable self multiple undirected newgraph newj newk
    then Some (SearchEnd newk false wcount (<[Z.to_nat newk := true]> picked) (S pos))
    else search unif self multiple undirected n fuel newgraph newj wcount
                (<[Z.to_nat newk := true]> picked) (S pos).
Proof.
  simpl. unfold acceptable. destruct (picked_at _ _); [done|].
  destruct undirected, self, multiple, (newj <? _), (newj =? _), (at_ _ _ _ =? 0); done.
Qed.


Section search_facts.
Variable unif : nat → Q.
Hypothesis Hunif : unit_interval unif.
Variables self multiple undirected : bool.
Variable n : Z.
Hypothesis Hn : 1 ≤ n.
Variables (newgraph : sp_mat) (newj : Z).

Local Abbreviation ok := (acceptable self multiple undirected newgraph newj).
Local Abbreviation search_post := (search_post unif self multiple undirected n newgraph newj).

Lemma search_spec fuel : ∀ wcount picked pos,
  length picked = Z.to_nat n →
  0 ≤ wcount < repeat_limit n →
  (unpicked picked + Z.to_nat (repeat_limit n - wcount) ≤ fuel)%nat →
  (∀ v, 0 ≤ v < n → picked_at picked v = true → ok v = false) →
  ∃ e, search unif self multiple undirected n fuel newgraph newj wcount picked pos = Some e
       ∧ search_post wcount picked pos e.
Proof.
  induction fuel as [|fuel IH]; intros wcount picked pos Hlen Hw Hfuel Hinv; [lia|].
  rewrite search_S. cbv zeta.
  destruct (Hunif pos) as [H0 H1].
  pose proof (scale_bounds n _ H0 H1 Hn) as Hk.
  set (newk := scale n (unif pos)) in *.
  destruct (picked_at picked newk) eqn:Hp.
  - assert (ok newk = false) as Hrej by (apply Hinv; [lia|done]).
    rewrite repeat_test by lia.
    destruct (Z.leb_spec (repeat_limit n) (wcount + 1)).
    + eexists; split; [done|]. unfold search_post; simpl.
      repeat split; try done; try lia.
    + destruct (IH (wcount + 1) picked (S pos)) as (e & -> & He); try done; try lia.
      eexists; split; [done|]. unfold search_post in *.
      destruct He as (? & ? & Hrejs & ? & ? & ? & ? & ? & ?).
      repeat split; try done; try lia.
      intros i Hi. destruct (decide (i = pos)) as [->|]; [done|]. apply Hrejs. lia.
  - assert (picked !! Z.to_nat newk = Some false) as Hlk.
    { apply picked_at_false; [lia|done]. }
    pose proof (unpicked_insert _ _ Hlk) as Hun.
    destruct (ok newk) eqn:Hok.
    + eexists; split; [done|]. unfold search_post; simpl.
      rewrite length_insert.
      repeat split; try done; try lia.
    + destruct (IH wcount (<[Z.to_nat newk := true]> picked) (S pos))
        as (e & -> & He); try done; try lia.
      * by rewrite length_insert.
      * intros v Hv. rewrite picked_at_insert by lia.
        case_decide as E; [by subst v|]. by apply Hinv.
      * eexists; split; [done|]. unfold search_post in *.
        destruct He as (? & ? & Hrejs & ? & ? & ? & ? & ? & ?).
        repeat split; try done; try lia.
        intros i Hi. destruct (decide (i = pos)) as [->|]; [done|]. apply Hrejs. lia.
Qed.

(** The search as [rewire_graph_cpp] starts it. *)
Lemma search_terminates pos :
  ∃ e, search unif self multiple undirected n (search_fuel n) newgraph newj 0
              (replicate (Z.to_nat n) false) pos = Some e
       ∧ search_post 0 (replicate (Z.to_nat n) false) pos e.
Proof.
  pose proof (repeat_limit_bounds n Hn) as Hlim.
  apply search_spec.
  - by rewrite length_replicate.
  - lia.
  - rewrite unpicked_replicate. unfold search_fuel. lia.
  - intros v _. by rewrite picked_at_replicate.
Qed.
End search_facts.

(** ** The sum of the entries under updates *)

Lemma accu_delete (m : gmap (Z * Z) Z) i :
  map_fold (λ _ w s, w + s) 0 (delete i m) =
  map_fold (λ _ w s, w + s) 0 m - default 0 (m !! i).
Proof.
  destruct (m !! i) as [x|] eqn:E; simpl.
  - rewrite (map_fold_delete_L (λ _ w s, w + s) 0 i x m); [lia| |done].
    intros; lia.
  - rewrite delete_id by done. lia.
Qed.

Lemma accu_insert (m : gmap (Z * Z) Z) i w :
  map_fold (λ _ w s, w + s) 0 (<[i:=w]> m) =
  map_fold (λ _ w s, w + s) 0 m - default 0 (m !! i) + w.
Proof.
  rewrite <- insert_delete_eq.
  rewrite (map_fold_insert_L (λ _ w s, w + s)).
  - rewrite accu_delete. lia.
  - intros; lia.
  - apply lookup_delete_eq.
Qed.

Lemma accu_set_at g r c w : accu (set_at g r c w) = accu g - at_ g r c + w.
Proof.
  unfold accu, set_at, at_. simpl. destruct (Z.eqb_spec w 0) as [->|Hw].
  - rewrite accu_delete. lia.
  - apply accu_insert.
Qed.

Lemma accu_add_at g r c w : accu (add_at g r c w) = accu g + w.
Proof. unfold add_at. rewrite accu_set_at. lia. Qed.

(** ** Moving an edge *)

Lemma at_move_edge undirected g j k newj newk a b :
  at_ (move_edge undirected g j k newj newk) a b =
  (if decide ((j, k) = (a, b)) then 0
   else if undirected && bool_decide ((k, j) = (a, b)) then 0
   else at_ g a b)
  + (if decide ((newj, newk) = (a, b)) then at_ g j k else 0)
  + (if undirected && bool_decide ((newk, newj) = (a, b)) then at_ g j k else 0).
Proof.
  unfold move_edge. destruct undirected; simpl;
    rewrite ?at_add_at, ?at_set_at; repeat case_decide; repeat case_bool_decide;
    simplify_eq; first [done | lia].
Qed.

Lemma accu_move_edge undirected g j k newj newk :
  (undirected = true → symmetric g ∧ j ≠ k) →
  accu (move_edge undirected g j k newj newk) = accu g.
Proof.
  intros Hu. unfold move_edge. destruct undirected.
  - destruct Hu as [Hsym Hjk]; [done|].
    rewrite !accu_add_at, !accu_set_at, at_set_at.
    rewrite decide_False by congruence. rewrite (Hsym k j). lia.
  - rewrite accu_add_at, accu_set_at. lia.
Qed.

Lemma symmetric_move_edge g j k newj newk :
  symmetric g → symmetric (move_edge true g j k newj newk).
Proof.
  intros Hsym a b. rewrite !at_move_edge, (Hsym a b). simpl.
  repeat case_decide; repeat case_bool_decide; simplify_eq; first [done | lia].
Qed.

Lemma zero_diagonal_move_edge undirected g j k newj newk :
  zero_diagonal g → newj ≠ newk →
  zero_diagonal (move_edge undirected g j k newj newk).
Proof.
  intros Hz Hne i. rewrite at_move_edge, (Hz i).
  destruct undirected; simpl;
    repeat case_decide; repeat case_bool_decide; simplify_eq; first [done | lia].
Qed.

(** ** The candidates *)

Lemma elem_of_sparse_indexes g r c :
  (r, c) ∈ sparse_indexes g ↔
  0 ≤ r < n_rows g ∧ 0 ≤ c < n_cols g ∧ at_ g r c ≠ 0.
Proof.
  unfold sparse_indexes. rewrite list_elem_of_bind. split.
  - intros (c' & (r' & H & Hr%elem_of_seqZ)%list_elem_of_bind & Hc%elem_of_seqZ).
    destruct (Z.eqb_spec (at_ g r' c') 0); [by apply elem_of_nil in H|].
    apply list_elem_of_singleton in H. simplify_eq. lia.
  - intros (Hr & Hc & Hat). exists c. rewrite elem_of_seqZ. split; [|lia].
    apply list_elem_of_bind. exists r. rewrite elem_of_seqZ. split; [|lia].
    destruct (Z.eqb_spec (at_ g r c) 0); [done|]. by apply list_elem_of_singleton.
Qed.

(** ** One candidate *)

Section edge_facts.
Variable unif : nat → Q.
Hypothesis Hunif : unit_interval unif.
Variables (p : Q) (both_ends self multiple undirected : bool).
Variable n : Z.
Hypothesis Hn : 1 ≤ n.

Lemma new_ends_spec newgraph j pos :
  ∃ e,
    let newj := if both_ends then scale n (unif pos) else j in
    let pos' := if both_ends then S pos else pos in
    new_ends unif both_ends self multiple undirected n newgraph j pos = Some (newj, e) ∧
    search_post unif self multiple undirected n newgraph newj
                0 (replicate (Z.to_nat n) false) pos' e.
Proof.
  unfold new_ends. destruct both_ends.
  - rewrite draw_vertex_eq.
    destruct (search_terminates unif Hunif self multiple undirected n Hn
                newgraph (scale n (unif pos)) (S pos)) as (e & -> & He).
    by exists e.
  - destruct (search_terminates unif Hunif self multiple undirected n Hn
                newgraph j pos) as (e & -> & He).
    by exists e.
Qed.

(** A candidate is either left alone, at the cost of one draw, or moved to
    the pair of end points that the search ended with. *)
Lemma rewire_edge_spec j k newgraph pos :
  let kept := negb (Qle_bool (unif pos) p) || (undirected && (j <? k)) in
  if kept then
    rewire_edge unif p both_ends self multiple undirected n (j, k) (newgraph, pos)
      = Some (newgraph, S pos) ∧
    broke_out unif p both_ends self multiple undirected n (j, k) (newgraph, pos) = false
  else
    ∃ e,
      let newj := if both_ends then scale n (unif (S pos)) else j in
      let pos' := if both_ends then S (S pos) else S pos in
      new_ends unif both_ends self multiple undirected n newgraph j (S pos)
        = Some (newj, e) ∧
      search_post unif self multiple undirected n newgraph newj
                  0 (replicate (Z.to_nat n) false) pos' e ∧
      rewire_edge unif p both_ends self multiple undirected n (j, k) (newgraph, pos)
        = Some (move_edge undirected newgraph j k newj (end_newk e), end_pos e) ∧
      broke_out unif p both_ends self multiple undirected n (j, k) (newgraph, pos)
        = end_conditions e.
Proof.
  unfold rewire_edge, broke_out, unif_rand.
  destruct (Qle_bool (unif pos) p); simpl; [|done].
  destruct (undirected && (j <? k)); simpl; [done|].
  destruct (new_ends_spec newgraph j (S pos)) as (e & He & Hpost).
  exists e. cbv zeta in He. rewrite He. simpl. done.
Qed.
End edge_facts.

(** ** The loop over the candidates *)

(** A property of the working copy and the position that every candidate of
    the list preserves is preserved by the loop, which returns. *)
Lemma rewire_loop_invariant unif p both_ends self multiple undirected n
      (I : sp_mat → nat → Prop) indexes :
  Forall (λ jk, ∀ g pos, I g pos →
                ∃ g' pos',
                  rewire_edge unif p both_ends self multiple undirected n jk (g, pos)
                    = Some (g', pos') ∧ I g' pos') indexes →
  ∀ g pos, I g pos →
    ∃ g' pos',
      rewire_loop unif p both_ends self multiple undirected n indexes (g, pos)
        = Some (g', pos') ∧ I g' pos'.
Proof.
  induction 1 as [|jk indexes Hjk _ IH]; intros g pos HI; cbn [rewire_loop].
  - by exists g, pos.
  - destruct (Hjk g pos HI) as (g1 & pos1 & -> & HI1). simpl. by apply IH.
Qed.

(** Every candidate of [sparse_indexes] lies in a matrix with a column. *)
Lemma sparse_indexes_cols g :
  Forall (λ jk, 1 ≤ n_cols g ∧ at_ g jk.1 jk.2 ≠ 0) (sparse_indexes g).
Proof.
  apply Forall_forall. intros [j k] H%elem_of_sparse_indexes. simpl. lia.
Qed.

(** Every candidate takes one draw at least. *)
Lemma rewire_loop_draws unif p both_ends self multiple undirected n indexes :
  unit_interval unif → (indexes = [] ∨ 1 ≤ n) →
  ∀ g pos, ∃ g' pos',
    rewire_loop unif p both_ends self multiple undirected n indexes (g, pos)
      = Some (g', pos') ∧ (pos + length indexes ≤ pos')%nat.
Proof.
  intros Hunif Hn. induction indexes as [|[j k] indexes IH]; intros g pos;
    cbn [rewire_loop length].
  - exists g, pos. split; [done|lia].
  - destruct Hn as [|Hn]; [done|].
    pose proof (rewire_edge_spec unif Hunif p both_ends self multiple undirected
                  n Hn j k g pos) as H.
    cbv zeta in H. destruct (_ || _).
    + destruct H as [-> _]. simpl.
      destruct (IH (or_intror Hn) g (S pos)) as (g' & pos' & -> & Hle).
      exists g', pos'. split; [done|lia].
    + destruct H as (e & _ & Hpost & -> & _). simpl.
      destruct (IH (or_intror Hn) (move_edge undirected g j k
                  (if both_ends then scale n (unif (S pos)) else j) (end_newk e))
                  (end_pos e)) as (g' & pos' & -> & Hle).
      exists g', pos'. split; [done|].
      destruct Hpost as (Hlt & _). destruct both_ends; lia.
Qed.

(** With [self = false], an accepted target is not the source. *)
Lemma acceptable_no_loop multiple undirected g newj newk :
  acceptable false multiple undirected g newj newk = true → newj ≠ newk.
Proof.
  unfold acceptable. intros H ->. rewrite Z.eqb_refl in H. simpl in H.
  by rewrite andb_false_r in H.
Qed.

Lemma rewire_loop_zero_diagonal unif p both_ends multiple undirected n indexes :
  unit_interval unif → (indexes = [] ∨ 1 ≤ n) →
  ∀ g pos,
    zero_diagonal g →
    no_break unif p both_ends false multiple undirected n indexes (g, pos) = true →
    ∃ g' pos',
      rewire_loop unif p both_ends false multiple undirected n indexes (g, pos)
        = Some (g', pos') ∧ zero_diagonal g'.
Proof.
  intros Hunif Hn. induction indexes as [|[j k] indexes IH]; intros g pos Hz Hnb;
    cbn [rewire_loop no_break] in *.
  - by exists g, pos.
  - destruct Hn as [|Hn]; [done|].
    pose proof (rewire_edge_spec unif Hunif p both_ends false multiple undirected
                  n Hn j k g pos) as H.
    cbv zeta in H. destruct (_ || _).
    + destruct H as [Hstep Hb]. rewrite Hstep, Hb in *. simpl in *.
      by apply (IH (or_intror Hn)).
    + destruct H as (e & _ & Hpost & Hstep & Hb). rewrite Hstep, Hb in *. simpl in *.
      apply andb_true_iff in Hnb as [Hc Hnb].
      apply (IH (or_intror Hn)); [|done].
      apply zero_diagonal_move_edge; [done|].
      destruct Hpost as (_ & _ & _ & Hok & _). rewrite Hc in Hok.
      by apply acceptable_no_loop in Hok.
Qed.

Lemma rewire_loop_p_zero unif both_ends self multiple undirected n indexes :
  (∀ i, (0 < unif i)%Q) →
  ∀ g pos,
    rewire_loop unif 0 both_ends self multiple undirected n indexes (g, pos)
      = Some (g, (pos + length indexes)%nat).
Proof.
  intros Hpos. induction indexes as [|jk indexes IH]; intros g pos;
    cbn [rewire_loop length].
  - do 2 f_equal. lia.
  - assert (rewire_edge unif 0 both_ends self multiple undirected n jk (g, pos)
            = Some (g, S pos)) as ->.
    { unfold rewire_edge, unif_rand.
      destruct (Qle_bool (unif pos) 0) eqn:E; [|done].
      apply Qle_bool_iff in E. apply Qle_not_lt in E. destruct E. apply Hpos. }
    simpl. rewrite IH. do 2 f_equal. lia.
Qed.

(** ** The claims about [ring_lattice] *)

(** C5.  [ring_lattice n k undirected] stops with the message of line 25
    exactly when [k > n - 1].  The test is the first statement of the
    function, so the result of a failing call is the message alone: no
    matrix has been built.  When [k <= n - 1] the call returns a matrix,
    which is [n] by [n]. *)
Theorem C5_ring_lattice_stop_iff (n k : Z) (undirected : bool) :
  0 ≤ n →
  (ring_lattice n k undirected = Stop "k can be at most n - 1" ↔ k > n - 1) ∧
  (∀ msg, ring_lattice n k undirected = Stop msg → k > n - 1) ∧
  (k ≤ n - 1 →
   ∃ g, ring_lattice n k undirected = Value g ∧ n_rows g = n ∧ n_cols g = n).
Proof.
  intros Hn. unfold ring_lattice.
  destruct (Z.ltb_spec (n - 1) k) as [Hlt|Hge].
  - split; [split; [lia|done]|]. split; [lia|lia].
  - split; [split; [done|lia]|]. split; [done|]. intros _.
    eexists. split; [done|]. apply dims_ring_loops.
Qed.

Lemma C5_witness :
  (ring_lattice 6 7 false = Stop "k can be at most n - 1" ↔ 7 > 6 - 1) ∧
  (∀ msg, ring_lattice 6 7 false = Stop msg → 7 > 6 - 1) ∧
  (7 ≤ 6 - 1 → ∃ g, ring_lattice 6 7 false = Value g ∧ n_rows g = 6 ∧ n_cols g = 6).
Proof. apply (C5_ring_lattice_stop_iff 6 7 false). lia. Defined.

(** C6.  For [n >= 1] and [0 <= k <= n-1], the directed lattice is the
    [n] by [n] matrix whose non-zero cells are exactly the cells
    [(i, (i+j) mod n)] with [0 <= i < n] and [1 <= j <= k]; each of them
    holds 1, there are [n*k] of them, and each row has [k] of them. *)
Theorem C6_ring_lattice_directed (n k : Z) :
  1 ≤ n → 0 ≤ k ≤ n - 1 →
  ∃ g, ring_lattice n k false = Value g ∧
       n_rows g = n ∧ n_cols g = n ∧
       (∀ r c, at_ g r c ≠ 0 ↔
               ∃ i j, 0 ≤ i < n ∧ 1 ≤ j ≤ k ∧ r = i ∧ c = (i + j) mod n) ∧
       (∀ r c, at_ g r c ≠ 0 → at_ g r c = 1) ∧
       n_nonzero g = n * k ∧
       (∀ i, 0 ≤ i < n → out_degree g i = k).
Proof.
  intros Hn Hk. rewrite ring_lattice_value by lia. simpl adjust_k.
  eexists; split; [done|].
  destruct (dims_ring_loops false n k (sp_zeros n n)) as [Hr Hc].
  simpl in Hr, Hc.
  assert (Hat : ∀ r c, at_ (ring_loops false n k (sp_zeros n n)) r c
                       = ind (on_ring n k r c)).
  { intros r c. rewrite at_ring_loops, at_sp_zeros by done. lia. }
  assert (Hdeg : ∀ i, 0 ≤ i < n →
                      out_degree (ring_loops false n k (sp_zeros n n)) i = k).
  { intros i Hi. unfold out_degree. rewrite Hc.
    etrans; [|by apply (count_successors n k i)].
    apply sumZ_ext. intros c _. rewrite Hat. by destruct (on_ring n k i c). }
  split; [done|]. split; [done|]. split; [|split; [|split; [|done]]].
  - intros r c. rewrite Hat. unfold on_ring, ind. case_bool_decide as H.
    + split; [intros _|done]. destruct H as (Hr' & Hc' & Hoff).
      exists r, (offset n r c). split; [done|]. split; [done|]. split; [done|].
      rewrite <- next_neighbor_mod.
      * symmetry. apply next_neighbor_offset; [done|lia|done].
      * done.
      * lia.
    + split; [done|]. intros (i & j & Hi & Hj & -> & ->). destruct H.
      split; [done|]. pose proof (Z.mod_pos_bound (i + j) n). split; [lia|].
      rewrite <- next_neighbor_mod by lia.
      pose proof (next_neighbor_offset n i j (next_neighbor n i j)). lia.
  - intros r c. rewrite Hat. by destruct (on_ring n k r c).
  - unfold n_nonzero. rewrite Hr.
    rewrite (sumZ_ext _ (λ _, k)) by (intros i Hi%elem_of_seqZ; apply Hdeg; lia).
    rewrite sumZ_const, length_seqZ. lia.
Qed.

Lemma C6_witness :
  ∃ g, ring_lattice 6 2 false = Value g ∧
       n_rows g = 6 ∧ n_cols g = 6 ∧
       (∀ r c, at_ g r c ≠ 0 ↔
               ∃ i j, 0 ≤ i < 6 ∧ 1 ≤ j ≤ 2 ∧ r = i ∧ c = (i + j) mod 6) ∧
       (∀ r c, at_ g r c ≠ 0 → at_ g r c = 1) ∧
       n_nonzero g = 6 * 2 ∧
       (∀ i, 0 ≤ i < 6 → out_degree g i = 2).
Proof. apply (C6_ring_lattice_directed 6 2); lia. Defined.

(** C7.  For [1 < k <= n-1], the undirected lattice is a symmetric matrix
    in which every row sums to [2 * floor(k/2)], over exactly that many
    non-zero cells. *)
Theorem C7_ring_lattice_undirected (n k : Z) :
  1 < k ≤ n - 1 →
  ∃ g, ring_lattice n k true = Value g ∧
       (∀ i j, at_ g i j = at_ g j i) ∧
       (∀ v, 0 ≤ v < n → row_sum g v = 2 * (k / 2) ∧ out_degree g v = 2 * (k / 2)).
Proof.
  intros Hk. rewrite ring_lattice_value by lia.
  pose proof (adjust_k_bounds n k true) as Hb.
  unfold adjust_k in *. destruct (Z.ltb_spec 1 k); [|lia]. rewrite half_div in *.
  set (h := k / 2) in *.
  assert (Hh : 2 * h < n).
  { pose proof (Z.mul_div_le k 2). lia. }
  eexists; split; [done|].
  destruct (dims_ring_loops true n h (sp_zeros n n)) as [Hr Hc].
  simpl in Hr, Hc.
  assert (Hat : ∀ r c, at_ (ring_loops true n h (sp_zeros n n)) r c
                       = ind (on_ring n h r c) + ind (on_ring n h c r)).
  { intros r c. rewrite at_ring_loops, at_sp_zeros by lia. lia. }
  split.
  - intros i j. rewrite !Hat. lia.
  - intros v Hv.
    assert (Hsum : row_sum (ring_loops true n h (sp_zeros n n)) v = 2 * h).
    { unfold row_sum. rewrite Hc.
      rewrite (sumZ_ext _ (λ c, ind (on_ring n h v c) + ind (on_ring n h c v)))
        by (intros; apply Hat).
      rewrite sumZ_plus, count_successors, count_predecessors by lia. lia. }
    split; [done|]. rewrite <- Hsum. unfold out_degree, row_sum. rewrite Hc.
    apply sumZ_ext. intros c _. rewrite Hat.
    pose proof (on_ring_exclusive n h v c Hh).
    destruct (on_ring n h v c), (on_ring n h c v); simpl; try done.
    by discriminate H0.
Qed.

Lemma C7_witness :
  ∃ g, ring_lattice 6 3 true = Value g ∧
       (∀ i j, at_ g i j = at_ g j i) ∧
       (∀ v, 0 ≤ v < 6 → row_sum g v = 2 * (3 / 2) ∧ out_degree g v = 2 * (3 / 2)).
Proof. apply (C7_ring_lattice_undirected 6 3); lia. Defined.

(** C10.  For [n >= 1] and [0 <= k <= n-1], directed or not, the diagonal
    of the lattice is zero. *)
Theorem C10_ring_lattice_no_self_loop (n k : Z) (undirected : bool) :
  1 ≤ n → 0 ≤ k ≤ n - 1 →
  ∃ g, ring_lattice n k undirected = Value g ∧ ∀ i, at_ g i i = 0.
Proof.
  intros Hn Hk. rewrite ring_lattice_value by lia.
  eexists; split; [done|]. intros i.
  rewrite at_ring_loops by (by apply adjust_k_bounds).
  rewrite at_sp_zeros, on_ring_diag. by destruct undirected.
Qed.

Lemma C10_witness :
  ∃ g, ring_lattice 6 5 true = Value g ∧ ∀ i, at_ g i i = 0.
Proof. apply (C10_ring_lattice_no_self_loop 6 5 true); lia. Defined.

(** ** The claims about [rewire_graph_cpp] *)

(** C1, as stated, fails: with [undirected = true] a diagonal entry that is
    rewired is written to two cells.  Here the input is the symmetric matrix
    whose only entry is the loop (1,1) of weight 1; its weight ends up on
    (1,0) and on (0,1), and the sum of the entries goes from 1 to 2. *)
Lemma C1_counterexample :
  unit_interval (λ _, 1 # 10)%Q ∧ symmetric one_loop ∧ accu one_loop = 1 ∧
  ∃ newgraph draws,
    rewire_graph_cpp (λ _, 1 # 10)%Q one_loop 1 false true false true
      = Some (newgraph, draws) ∧
    at_ newgraph 1 0 = 1 ∧ at_ newgraph 0 1 = 1 ∧ accu newgraph = 2 ∧
    accu newgraph ≠ accu one_loop.
Proof.
  split; [|split; [|split]].
  - intros i. split; [by vm_compute|by vm_compute].
  - intros i j. unfold at_, one_loop. simpl.
    destruct (decide ((1, 1) = (i, j))) as [E|E].
    + inversion E; subst. done.
    + rewrite !lookup_singleton_ne; [done|congruence|congruence].
  - by vm_compute.
  - eexists _, _. split; [by vm_compute|]. by vm_compute.
Qed.

(** C1, amended.  The draws being in [[0,1)], the call returns and the sum
    of all entries of the result is the sum of all entries of the input:
    for every input when [undirected = false], and for every symmetric input
    with a zero diagonal when [undirected = true]. *)
Theorem C1_total_weight_conserved (unif : nat → Q) (graph : sp_mat) (p : Q)
        (both_ends self multiple undirected : bool) :
  unit_interval unif →
  (undirected = true → symmetric graph ∧ zero_diagonal graph) →
  ∃ newgraph draws,
    rewire_graph_cpp unif graph p both_ends self multiple undirected
      = Some (newgraph, draws) ∧
    accu newgraph = accu graph.
Proof.
  intros Hunif Hund. unfold rewire_graph_cpp.
  destruct (rewire_loop_invariant unif p both_ends self multiple undirected
              (n_cols graph)
              (λ g _, accu g = accu graph ∧ (undirected = true → symmetric g))
              (sparse_indexes graph)) with (g := graph) (pos := 0%nat)
    as (g' & pos' & Hrun & Hacc & _).
  - eapply Forall_impl; [apply sparse_indexes_cols|].
    intros [j k] [Hn Hjk] g pos [Hacc Hsym]. simpl in Hjk.
    pose proof (rewire_edge_spec unif Hunif p both_ends self multiple undirected
                  (n_cols graph) Hn j k g pos) as H.
    cbv zeta in H. destruct (_ || _).
    + destruct H as [-> _]. by eexists _, _.
    + destruct H as (e & _ & _ & -> & _). eexists _, _. split; [done|]. split.
      * rewrite accu_move_edge; [done|]. intros Hu. split; [by apply Hsym|].
        destruct (Hund Hu) as [_ Hz]. intros ->. by rewrite Hz in Hjk.
      * intros ->. apply symmetric_move_edge. by apply Hsym.
  - split; [done|]. intros Hu. by apply Hund.
  - by exists g', pos'.
Qed.

Lemma thirds_unit_interval : unit_interval thirds.
Proof.
  intros i. unfold thirds, Qle, Qlt. simpl.
  pose proof (Nat.mod_upper_bound i 3). lia.
Qed.

Lemma symmetric_mutual01 : symmetric mutual01.
Proof.
  intros i j. unfold mutual01. rewrite !at_set_at, !at_sp_zeros.
  repeat case_decide; simplify_eq; done.
Qed.

Lemma zero_diagonal_mutual01 : zero_diagonal mutual01.
Proof.
  intros i. unfold mutual01. rewrite !at_set_at, !at_sp_zeros.
  repeat case_decide; simplify_eq; done.
Qed.

Lemma C1_witness :
  ∃ newgraph draws,
    rewire_graph_cpp thirds mutual01 1 false false false true
      = Some (newgraph, draws) ∧
    accu newgraph = accu mutual01.
Proof.
  apply (C1_total_weight_conserved thirds mutual01 1 false false false true).
  - exact thirds_unit_interval.
  - intros _. split; [exact symmetric_mutual01|exact zero_diagonal_mutual01].
Defined.

(** C2: the code departs from it.  A draw is [floor((n-1)*u)] with [u] in
    [[0,1)]: for [n >= 2] it lies in [[0, n-2]], so the vertex [n-1] is never
    drawn, neither as [newj] nor as a candidate [newk]. *)
Theorem C2_last_vertex_never_drawn (unif : nat → Q) (n : Z) (pos : nat) :
  unit_interval unif → 2 ≤ n →
  0 ≤ (draw_vertex unif n pos).1 ≤ n - 2 ∧ (draw_vertex unif n pos).1 ≠ n - 1.
Proof.
  intros Hunif Hn. rewrite draw_vertex_eq. simpl.
  destruct (Hunif pos) as [H0 H1].
  pose proof (scale_bounds n _ H0 H1). lia.
Qed.

Lemma C2_witness :
  0 ≤ (draw_vertex (λ _, 9 # 10)%Q 2 0).1 ≤ 2 - 2 ∧
  (draw_vertex (λ _, 9 # 10)%Q 2 0).1 ≠ 2 - 1.
Proof.
  apply (C2_last_vertex_never_drawn (λ _, 9 # 10)%Q 2 0).
  - intros i. split; [by vm_compute|by vm_compute].
  - lia.
Defined.

(** C3, as stated, fails, in two ways.  A diagonal entry of the input that
    is not selected stays where it is: with [p = 0] and positive draws the
    loop (1,1) is returned as it came.  And a search that ends by the
    [break] moves the edge to the last value drawn: the input is the
    complete directed graph on three vertices, whose diagonal is zero; with
    [self = false] and [multiple = false] no target is acceptable, and the
    edge (0,1) is moved to the cell (0,0). *)
Lemma C3_counterexample :
  unit_interval (λ _, 1 # 10)%Q ∧
  (∃ newgraph draws,
     rewire_graph_cpp (λ _, 1 # 10)%Q one_loop 0 false false false false
       = Some (newgraph, draws) ∧
     at_ newgraph 1 1 = 1) ∧
  zero_diagonal complete3 ∧
  ∃ newgraph draws,
    rewire_graph_cpp (λ _, 1 # 10)%Q complete3 1 false false false false
      = Some (newgraph, draws) ∧
    at_ newgraph 0 0 = 2.
Proof.
  split; [|split; [|split]].
  - intros i. split; [by vm_compute|by vm_compute].
  - eexists _, _. split; [by vm_compute|]. by vm_compute.
  - intros i. unfold at_, complete3. simpl.
    rewrite !lookup_insert_ne by (intros E; inversion E; lia). done.
  - eexists _, _. split; [by vm_compute|]. by vm_compute.
Qed.

(** C3, amended.  With [self = false], when the diagonal of the input is
    zero and no search of the run ends by the [break] of line 113, the call
    returns and the diagonal of the result is zero. *)
Theorem C3_no_self_loops (unif : nat → Q) (graph : sp_mat) (p : Q)
        (both_ends multiple undirected : bool) :
  unit_interval unif →
  zero_diagonal graph →
  no_break unif p both_ends false multiple undirected (n_cols graph)
           (sparse_indexes graph) (graph, 0%nat) = true →
  ∃ newgraph draws,
    rewire_graph_cpp unif graph p both_ends false multiple undirected
      = Some (newgraph, draws) ∧
    zero_diagonal newgraph.
Proof.
  intros Hunif Hz Hnb. unfold rewire_graph_cpp.
  apply rewire_loop_zero_diagonal; try done.
  destruct (sparse_indexes graph) as [|[j k] l] eqn:E; [by left|right].
  pose proof (sparse_indexes_cols graph) as H. rewrite E in H.
  by apply Forall_cons in H as [[H _] _].
Qed.

Lemma zero_diagonal_single01 : zero_diagonal (one_edge 4).
Proof.
  intros i. unfold at_, one_edge. simpl. rewrite lookup_singleton_ne; [done|].
  intros E. inversion E. lia.
Qed.

Lemma C3_witness :
  ∃ newgraph draws,
    rewire_graph_cpp thirds (one_edge 4) 1 false false false false
      = Some (newgraph, draws) ∧
    zero_diagonal newgraph.
Proof.
  apply (C3_no_self_loops thirds (one_edge 4) 1 false false false).
  - exact thirds_unit_interval.
  - exact zero_diagonal_single01.
  - by vm_compute.
Defined.

(** C4, as stated, fails: the test of line 86 is [unif_rand() > p], and a
    draw equal to 0, which lies in [[0,1)], does not exceed [p = 0]; the edge
    is rewired. *)
Lemma C4_counterexample :
  unit_interval (λ _, 0)%Q ∧
  ∃ newgraph draws,
    rewire_graph_cpp (λ _, 0)%Q (one_edge 3) 0 false true false false
      = Some (newgraph, draws) ∧
    at_ (one_edge 3) 0 1 = 1 ∧ at_ newgraph 0 1 = 0 ∧ at_ newgraph 0 0 = 1.
Proof.
  split.
  - intros i. split; [by vm_compute|by vm_compute].
  - eexists _, _. split; [by vm_compute|]. by vm_compute.
Qed.

(** C4, amended.  When every draw is strictly positive, as the values of R's
    [unif_rand()] are, the call with [p = 0] returns the input graph itself,
    having taken one draw for each candidate. *)
Theorem C4_p_zero_identity (unif : nat → Q) (graph : sp_mat)
        (both_ends self multiple undirected : bool) :
  (∀ i, (0 < unif i)%Q) →
  rewire_graph_cpp unif graph 0 both_ends self multiple undirected
    = Some (graph, length (sparse_indexes graph)).
Proof. intros Hpos. unfold rewire_graph_cpp. by rewrite rewire_loop_p_zero. Qed.

Lemma C4_witness :
  rewire_graph_cpp (λ _, 1 # 10)%Q complete3 0 true false false true
    = Some (complete3, length (sparse_indexes complete3)).
Proof.
  apply (C4_p_zero_identity (λ _, 1 # 10)%Q complete3 true false false true).
  intros i. by vm_compute.
Defined.




(** C9, as stated, fails: the draw of line 86 comes before the test of
    line 93.  The only candidate of this graph is (0,1), with row < col; it
    is skipped, and one value of the generator has been consumed. *)
Lemma C9_counterexample :
  sparse_indexes (one_edge 2) = [(0, 1)] ∧
  rewire_graph_cpp (λ _, 1 # 2)%Q (one_edge 2) 1 false false false true
    = Some (one_edge 2, 1%nat).
Proof. split; by vm_compute. Qed.

(** C9, amended.  In a run with [undirected = true] the draw that is
    compared with [p] is made for every candidate, before the test
    [row < col]: a candidate with [row < col] takes exactly that one draw
    and leaves the working copy as it is, and the run takes at least as many
    draws as there are candidates. *)
Theorem C9_draw_before_skip (unif : nat → Q) (graph : sp_mat) (p : Q)
        (both_ends self multiple : bool) :
  unit_interval unif →
  (∀ n j k newgraph pos,
     j < k →
     rewire_edge unif p both_ends self multiple true n (j, k) (newgraph, pos)
       = Some (newgraph, S pos)) ∧
  ∃ newgraph draws,
    rewire_graph_cpp unif graph p both_ends self multiple true
      = Some (newgraph, draws) ∧
    (length (sparse_indexes graph) ≤ draws)%nat.
Proof.
  intros Hunif. split.
  - intros n j k newgraph pos Hjk. unfold rewire_edge, unif_rand.
    destruct (Qle_bool (unif pos) p); simpl; [|done].
    by destruct (Z.ltb_spec j k); [|lia].
  - unfold rewire_graph_cpp.
    destruct (rewire_loop_draws unif p both_ends self multiple true (n_cols graph)
                (sparse_indexes graph) Hunif) with (g := graph) (pos := 0%nat)
      as (g' & pos' & Hrun & Hle).
    + destruct (sparse_indexes graph) as [|[j k] l] eqn:E; [by left|right].
      pose proof (sparse_indexes_cols graph) as H. rewrite E in H.
      by apply Forall_cons in H as [[H _] _].
    + exists g', pos'. split; [done|lia].
Qed.

Lemma C9_witness :
  (∀ n j k newgraph pos,
     j < k →
     rewire_edge (λ _, 1 # 2)%Q 1 false false false true n (j, k) (newgraph, pos)
       = Some (newgraph, S pos)) ∧
  ∃ newgraph draws,
    rewire_graph_cpp (λ _, 1 # 2)%Q (one_edge 2) 1 false false false true
      = Some (newgraph, draws) ∧
    (length (sparse_indexes (one_edge 2)) ≤ draws)%nat.
Proof.
  apply (C9_draw_before_skip (λ _, 1 # 2)%Q (one_edge 2) 1
           false false false).
  intros i. split; [by vm_compute|by vm_compute].
Defined.

(** ** The scenarios of the specification, computed *)

Example ring_lattice_6_2_directed :
  ∃ g, ring_lattice 6 2 false = Value g ∧
       sparse_indexes g =
         [(4, 0); (5, 0); (0, 1); (5, 1); (0, 2); (1, 2);
          (1, 3); (2, 3); (2, 4); (3, 4); (3, 5); (4, 5)] ∧
       accu g = 12 ∧ n_nonzero g = 12.
Proof. eexists. split; [done|]. by vm_compute. Qed.

Example ring_lattice_6_2_undirected :
  ∃ g, ring_lattice 6 2 true = Value g ∧
       sparse_indexes g =
         [(1, 0); (5, 0); (0, 1); (2, 1); (1, 2); (3, 2);
          (2, 3); (4, 3); (3, 4); (5, 4); (0, 5); (4, 5)] ∧
       accu g = 12 ∧ n_nonzero g = 12.
Proof. eexists. split; [done|]. by vm_compute. Qed.

Example ring_lattice_7_7 :
  ring_lattice 7 7 false = Stop "k can be at most n - 1".
Proof. done. Qed.

Example rewire_ring_lattice_14_2 :
  ∃ g g' draws,
    ring_lattice 14 2 true = Value g ∧
    rewire_graph_cpp thirteenths g 1 false false false true = Some (g', draws) ∧
    accu g = 28 ∧ accu g' = 28 ∧
    forallb (λ i, at_ g' i i =? 0) (seqZ 0 14) = true ∧
    forallb (λ jk, at_ g' jk.1 jk.2 =? 1) (sparse_indexes g') = true.
Proof. eexists _, _, _. split; [done|]. split; [by vm_compute|]. by vm_compute. Qed.

(** The last vertex is never a new end point: with two vertices every edge
    that is rewired ends on vertex 0. *)
Example rewire_two_vertices :
  ∃ g g' draws,
    ring_lattice 2 1 false = Value g ∧
    sparse_indexes g = [(1, 0); (0, 1)] ∧
    rewire_graph_cpp thirteenths g 1 false true true false = Some (g', draws) ∧
    sparse_indexes g' = [(0, 0); (1, 0)].
Proof. eexists _, _, _. split; [done|]. split; [by vm_compute|]. by vm_compute. Qed.

(** ** More about [ring_lattice] *)

Lemma accu_connect und n i g j :
  accu (connect und n i g j) = accu g + (if und then 2 else 1).
Proof. unfold connect. destruct und; rewrite ?accu_add_at; lia. Qed.

Lemma accu_inner_loop und n i js : ∀ g,
  accu (foldl (connect und n i) g js) =
  accu g + (if und then 2 else 1) * Z.of_nat (length js).
Proof.
  induction js as [|j js IH]; intros g; simpl foldl; simpl length; [lia|].
  rewrite IH, accu_connect. lia.
Qed.

Lemma accu_ring_loops und n k g :
  0 ≤ n → 0 ≤ k →
  accu (ring_loops und n k g) = accu g + (if und then 2 else 1) * n * k.
Proof.
  intros Hn Hk. unfold ring_loops.
  assert (∀ rows g, accu (foldl (λ g i, foldl (connect und n i) g (seqZ 1 k)) g rows)
                    = accu g + (if und then 2 else 1) * k * Z.of_nat (length rows)) as H.
  { induction rows as [|i rows IH]; intros g0; simpl foldl; simpl length; [lia|].
    rewrite IH, accu_inner_loop, length_seqZ, Nat2Z.inj_succ, Z2Nat.id by lia.
    destruct und; ring. }
  rewrite H, length_seqZ, Z2Nat.id by lia. destruct und; ring.
Qed.

Lemma accu_sp_zeros a b : accu (sp_zeros a b) = 0.
Proof. unfold accu, sp_zeros. simpl. apply map_fold_empty. Qed.

(** X1.  The sum of the entries of the lattice: [n*k] when directed, twice
    [n] times the degree that the loops use when undirected. *)
Theorem X1_ring_lattice_total_weight (n k : Z) (undirected : bool) :
  0 ≤ k ≤ n - 1 →
  ∃ g, ring_lattice n k undirected = Value g ∧
       accu g = if undirected then 2 * n * (if 1 <? k then k / 2 else k) else n * k.
Proof.
  intros Hk. rewrite ring_lattice_value by lia. eexists; split; [done|].
  pose proof (adjust_k_bounds n k undirected Hk) as Hb.
  rewrite accu_ring_loops, accu_sp_zeros by lia.
  unfold adjust_k. destruct undirected; [|lia].
  destruct (1 <? k); rewrite ?half_div; lia.
Qed.

Lemma X1_witness :
  ∃ g, ring_lattice 14 5 true = Value g ∧
       accu g = if true then 2 * 14 * (if 1 <? 5 then 5 / 2 else 5) else 14 * 5.
Proof. apply (X1_ring_lattice_total_weight 14 5 true). lia. Defined.

Lemma ring_loops_no_offsets und n k g : k ≤ 0 → ring_loops und n k g = g.
Proof.
  intros Hk. unfold ring_loops. rewrite (seqZ_nil 1 k) by lia.
  generalize (seqZ 0 n) as rows. induction rows as [|i rows IH]; simpl; [done|].
  exact IH.
Qed.

(** X2.  A degree [k <= 0] is not rejected: when it passes the test
    [k <= n - 1], the loops write nothing and the result is the empty
    [n] by [n] matrix. *)
Theorem X2_ring_lattice_no_degree (n k : Z) (undirected : bool) :
  0 ≤ n → k ≤ 0 → k ≤ n - 1 →
  ring_lattice n k undirected = Value (sp_zeros n n).
Proof.
  intros _ Hk Hn. rewrite ring_lattice_value by done. f_equal.
  apply ring_loops_no_offsets. unfold adjust_k.
  destruct undirected; [|done]. by destruct (Z.ltb_spec 1 k); [lia|].
Qed.

Lemma X2_witness : ring_lattice 5 (-3) true = Value (sp_zeros 5 5).
Proof. apply (X2_ring_lattice_no_degree 5 (-3) true); lia. Defined.

(** The cells of the lattice, for either kind. *)
Lemma at_ring_lattice n k und :
  0 ≤ k ≤ n - 1 →
  ∃ g, ring_lattice n k und = Value g ∧ n_rows g = n ∧ n_cols g = n ∧
       ∀ r c, at_ g r c =
              ind (on_ring n (adjust_k k und) r c) +
              (if und then ind (on_ring n (adjust_k k und) c r) else 0).
Proof.
  intros Hk. rewrite ring_lattice_value by lia. eexists; split; [done|].
  destruct (dims_ring_loops und n (adjust_k k und) (sp_zeros n n)) as [-> ->].
  split; [done|]. split; [done|]. intros r c.
  rewrite at_ring_loops by (by apply adjust_k_bounds). by rewrite at_sp_zeros.
Qed.

(** X3.  With [undirected = true] the degree [k = 1] is not halved: every
    row of the lattice sums to 2.  From three vertices on these are two
    cells of weight 1, the two neighbours; on two vertices the two passes
    of the loop meet, and the single edge has weight 2. *)
Theorem X3_ring_lattice_undirected_one (n : Z) :
  2 ≤ n →
  ∃ g, ring_lattice n 1 true = Value g ∧
       (∀ v, 0 ≤ v < n → row_sum g v = 2) ∧
       (3 ≤ n → ∀ v, 0 ≤ v < n → out_degree g v = 2) ∧
       (n = 2 → at_ g 0 1 = 2 ∧ at_ g 1 0 = 2).
Proof.
  intros Hn. destruct (at_ring_lattice n 1 true) as (g & Hg & Hr & Hc & Hat); [lia|].
  simpl in Hat. exists g. split; [done|].
  assert (Hsum : ∀ v, 0 ≤ v < n → row_sum g v = 2).
  { intros v Hv. unfold row_sum. rewrite Hc.
    rewrite (sumZ_ext _ (λ c, ind (on_ring n 1 v c) + ind (on_ring n 1 c v)))
      by (intros; apply Hat).
    rewrite sumZ_plus, count_successors, count_predecessors by lia. lia. }
  split; [done|]. split.
  - intros H3 v Hv. rewrite <- (Hsum v Hv). unfold out_degree, row_sum. rewrite Hc.
    apply sumZ_ext. intros c _. rewrite Hat.
    pose proof (on_ring_exclusive n 1 v c) as Hex.
    destruct (on_ring n 1 v c), (on_ring n 1 c v); simpl; try done.
    by discriminate Hex; [lia|].
  - intros ->. rewrite !Hat. by vm_compute.
Qed.

Lemma X3_witness :
  ∃ g, ring_lattice 5 1 true = Value g ∧
       (∀ v, 0 ≤ v < 5 → row_sum g v = 2) ∧
       (3 ≤ 5 → ∀ v, 0 ≤ v < 5 → out_degree g v = 2) ∧
       (5 = 2 → at_ g 0 1 = 2 ∧ at_ g 1 0 = 2).
Proof. apply (X3_ring_lattice_undirected_one 5). lia. Defined.

(** X4.  In the directed lattice every column sums to [k] as well: each
    vertex is the target of exactly [k] edges. *)
Theorem X4_ring_lattice_in_degree (n k : Z) :
  0 ≤ k ≤ n - 1 →
  ∃ g, ring_lattice n k false = Value g ∧ ∀ c, 0 ≤ c < n → col_sum g c = k.
Proof.
  intros Hk. destruct (at_ring_lattice n k false) as (g & Hg & Hr & Hc & Hat); [lia|].
  simpl in Hat. exists g. split; [done|]. intros c Hcr.
  unfold col_sum. rewrite Hr.
  etrans; [|by apply (count_predecessors n k c)].
  apply sumZ_ext. intros r _. rewrite Hat. lia.
Qed.

Lemma X4_witness :
  ∃ g, ring_lattice 6 2 false = Value g ∧ ∀ c, 0 ≤ c < 6 → col_sum g c = 2.
Proof. apply (X4_ring_lattice_in_degree 6 2). lia. Defined.

(** X5.  With the largest degree allowed, [k = n - 1], the directed lattice
    is the complete directed graph without loops. *)
Theorem X5_ring_lattice_complete (n : Z) :
  1 ≤ n →
  ∃ g, ring_lattice n (n - 1) false = Value g ∧
       ∀ r c, 0 ≤ r < n → 0 ≤ c < n → at_ g r c = if decide (r = c) then 0 else 1.
Proof.
  intros Hn. destruct (at_ring_lattice n (n - 1) false) as (g & Hg & _ & _ & Hat); [lia|].
  simpl in Hat. exists g. split; [done|]. intros r c Hr Hc.
  rewrite Hat. unfold on_ring, offset, ind.
  destruct (Z.leb_spec r c); case_decide; case_bool_decide; lia.
Qed.

Lemma X5_witness :
  ∃ g, ring_lattice 4 (4 - 1) false = Value g ∧
       ∀ r c, 0 ≤ r < 4 → 0 ≤ c < 4 → at_ g r c = if decide (r = c) then 0 else 1.
Proof. apply (X5_ring_lattice_complete 4). lia. Defined.

Lemma on_ring_rotate n k r c :
  0 ≤ r < n → 0 ≤ c < n →
  on_ring n k (next_neighbor n r 1) (next_neighbor n c 1) = on_ring n k r c.
Proof.
  intros Hr Hc. unfold on_ring, offset, next_neighbor. simpl.
  apply bool_decide_ext.
  destruct (Z.leb_spec n (r + 1)), (Z.leb_spec n (c + 1)), (Z.leb_spec r c);
    repeat match goal with |- context [?a <=? ?b] => destruct (Z.leb_spec a b) end; lia.
Qed.

(** X6.  The lattice is the same seen from every vertex: moving both
    indices of a cell one step forward around the ring does not change its
    value. *)
Theorem X6_ring_lattice_rotation (n k : Z) (undirected : bool) :
  0 ≤ k ≤ n - 1 →
  ∃ g, ring_lattice n k undirected = Value g ∧
       ∀ r c, 0 ≤ r < n → 0 ≤ c < n →
              at_ g (next_neighbor n r 1) (next_neighbor n c 1) = at_ g r c.
Proof.
  intros Hk. destruct (at_ring_lattice n k undirected) as (g & Hg & _ & _ & Hat); [lia|].
  exists g. split; [done|]. intros r c Hr Hc.
  rewrite !Hat, !on_ring_rotate by done. done.
Qed.

Lemma X6_witness :
  ∃ g, ring_lattice 7 3 true = Value g ∧
       ∀ r c, 0 ≤ r < 7 → 0 ≤ c < 7 →
              at_ g (next_neighbor 7 r 1) (next_neighbor 7 c 1) = at_ g r c.
Proof. apply (X6_ring_lattice_rotation 7 3 true). lia. Defined.

(** X7.  The undirected lattice is the directed lattice of the degree that
    the loops use, plus its transpose. *)
Theorem X7_ring_lattice_symmetrised (n k : Z) :
  0 ≤ k ≤ n - 1 →
  ∃ gu gd,
    ring_lattice n k true = Value gu ∧
    ring_lattice n (if 1 <? k then k / 2 else k) false = Value gd ∧
    ∀ r c, at_ gu r c = at_ gd r c + at_ gd c r.
Proof.
  intros Hk. pose proof (adjust_k_bounds n k true Hk) as Hb.
  destruct (at_ring_lattice n k true) as (gu & Hgu & _ & _ & Hu); [lia|].
  destruct (at_ring_lattice n (adjust_k k true) false) as (gd & Hgd & _ & _ & Hd); [lia|].
  exists gu, gd. split; [done|]. split.
  - rewrite <- Hgd. unfold adjust_k. destruct (1 <? k); by rewrite ?half_div.
  - intros r c. rewrite Hu, !Hd. simpl. lia.
Qed.

Lemma X7_witness :
  ∃ gu gd,
    ring_lattice 9 4 true = Value gu ∧
    ring_lattice 9 (if 1 <? 4 then 4 / 2 else 4) false = Value gd ∧
    ∀ r c, at_ gu r c = at_ gd r c + at_ gd c r.
Proof. apply (X7_ring_lattice_symmetrised 9 4). lia. Defined.

(** ** Entries stay inside the matrix *)

Lemma well_formed_set_at g r c w :
  well_formed g → 0 ≤ r < n_rows g → 0 ≤ c < n_cols g →
  well_formed (set_at g r c w).
Proof.
  unfold well_formed, set_at. simpl. intros Hg Hr Hc.
  destruct (Z.eqb_spec w 0) as [->|Hw].
  - by apply map_Forall_delete.
  - by apply map_Forall_insert_2.
Qed.

Lemma well_formed_add_at g r c w :
  well_formed g → 0 ≤ r < n_rows g → 0 ≤ c < n_cols g →
  well_formed (add_at g r c w).
Proof. apply well_formed_set_at. Qed.

Lemma well_formed_sp_zeros a b : well_formed (sp_zeros a b).
Proof. apply map_Forall_empty. Qed.

(** A stored entry is what [at_] reads, and what [at_] reads as non-zero is
    stored. *)
Lemma well_formed_at g r c :
  well_formed g → at_ g r c ≠ 0 → 0 ≤ r < n_rows g ∧ 0 ≤ c < n_cols g.
Proof.
  unfold at_. intros Hg Hat. destruct (values g !! (r, c)) as [w|] eqn:E; [|done].
  apply Hg in E. simpl in E. lia.
Qed.

Lemma next_neighbor_range n i j :
  0 ≤ i < n → 1 ≤ j ≤ n - 1 → 0 ≤ next_neighbor n i j < n.
Proof.
  intros Hi Hj. unfold next_neighbor. simpl. destruct (Z.leb_spec n (i + j)); lia.
Qed.

Lemma well_formed_connect und n i g j :
  n_rows g = n → n_cols g = n → 0 ≤ i < n → 1 ≤ j ≤ n - 1 →
  well_formed g → well_formed (connect und n i g j).
Proof.
  intros Hr Hc Hi Hj Hg. pose proof (next_neighbor_range n i j Hi Hj).
  unfold connect. destruct und; repeat apply well_formed_add_at;
    rewrite ?n_rows_add_at, ?n_cols_add_at; try done; lia.
Qed.

Lemma well_formed_inner_loop und n i js : ∀ g,
  n_rows g = n → n_cols g = n → 0 ≤ i < n → Forall (λ j, 1 ≤ j ≤ n - 1) js →
  well_formed g → well_formed (foldl (connect und n i) g js).
Proof.
  induction js as [|j js IH]; intros g Hr Hc Hi Hjs Hg; simpl; [done|].
  apply Forall_cons in Hjs as [Hj Hjs].
  apply IH; try done.
  - unfold connect. by destruct und.
  - unfold connect. by destruct und.
  - by apply well_formed_connect.
Qed.

Lemma well_formed_ring_loops und n k g :
  k ≤ n - 1 → n_rows g = n → n_cols g = n →
  well_formed g → well_formed (ring_loops und n k g).
Proof.
  intros Hk. unfold ring_loops.
  assert (Forall (λ i, 0 ≤ i < n) (seqZ 0 n)) as Hrows.
  { apply Forall_seqZ. lia. }
  revert g Hrows. generalize (seqZ 0 n) as rows.
  induction rows as [|i rows IH]; intros g Hrows Hr Hc Hg; simpl; [done|].
  apply Forall_cons in Hrows as [Hi Hrows].
  destruct (dims_inner_loop und n i (seqZ 1 k) g) as [Hr' Hc'].
  apply IH; try done; try congruence.
  apply well_formed_inner_loop; try done. apply Forall_seqZ. lia.
Qed.

(** X8.  The lattice has no entry outside the [n] by [n] matrix: every
    write of the loops is in bounds, and every stored entry is non-zero. *)
Theorem X8_ring_lattice_in_bounds (n k : Z) (undirected : bool) :
  0 ≤ n → k ≤ n - 1 →
  ∃ g, ring_lattice n k undirected = Value g ∧ n_rows g = n ∧ n_cols g = n ∧
       well_formed g ∧
       ∀ r c, at_ g r c ≠ 0 → 0 ≤ r < n ∧ 0 ≤ c < n.
Proof.
  intros _ Hk. rewrite ring_lattice_value by done. eexists; split; [done|].
  destruct (dims_ring_loops undirected n (adjust_k k undirected) (sp_zeros n n))
    as [Hr Hc]. simpl in Hr, Hc.
  assert (well_formed (ring_loops undirected n (adjust_k k undirected) (sp_zeros n n)))
    as Hwf.
  { apply well_formed_ring_loops; [|done|done|apply well_formed_sp_zeros].
    unfold adjust_k. destruct undirected; [|done].
    destruct (Z.ltb_spec 1 k); [|done]. rewrite half_div.
    pose proof (Z.div_le_upper_bound k 2 k). lia. }
  split; [done|]. split; [done|]. split; [done|].
  intros r c Hat. apply well_formed_at in Hat; [|done]. by rewrite Hr, Hc in Hat.
Qed.

Lemma X8_witness :
  ∃ g, ring_lattice 6 5 true = Value g ∧ n_rows g = 6 ∧ n_cols g = 6 ∧
       well_formed g ∧
       ∀ r c, at_ g r c ≠ 0 → 0 ≤ r < 6 ∧ 0 ≤ c < 6.
Proof. apply (X8_ring_lattice_in_bounds 6 5 true); lia. Defined.

(** ** More about [rewire_graph_cpp] *)

(** What the loop body does with one candidate: it returns, after at least
    one and at most [n*n + n + 2] draws, and the working copy is either
    untouched or the one that [move_edge] gives for end points that were
    drawn, hence at most [n - 2] from two vertices on. *)
Lemma rewire_edge_outcome unif p both_ends self multiple undirected n j k g pos :
  unit_interval unif → 1 ≤ n →
  ∃ g' pos',
    rewire_edge unif p both_ends self multiple undirected n (j, k) (g, pos)
      = Some (g', pos') ∧
    (S pos ≤ pos')%nat ∧
    Z.of_nat pos' ≤ Z.of_nat pos + (n * n + n + 2) ∧
    ((g' = g ∧
      broke_out unif p both_ends self multiple undirected n (j, k) (g, pos) = false) ∨
     ∃ newj newk,
       g' = move_edge undirected g j k newj newk ∧
       (if both_ends then 0 ≤ newj ≤ Z.max 0 (n - 2) else newj = j) ∧
       0 ≤ newk ≤ Z.max 0 (n - 2) ∧
       ¬ (undirected = true ∧ j < k) ∧
       (broke_out unif p both_ends self multiple undirected n (j, k) (g, pos) = false →
        acceptable self multiple undirected g newj newk = true)).
Proof.
  intros Hunif Hn.
  pose proof (rewire_edge_spec unif Hunif p both_ends self multiple undirected
                n Hn j k g pos) as H.
  cbv zeta in H.
  destruct (negb (Qle_bool (unif pos) p) || undirected && (j <? k)) eqn:Hkept.
  - destruct H as [-> Hb]. exists g, (S pos). split; [done|].
    split; [lia|]. split; [nia|]. left. by split.
  - destruct H as (e & _ & Hpost & -> & Hb).
    apply orb_false_iff in Hkept as [_ Hskip].
    destruct Hpost as (Hlt & Hlast & _ & Hok & _ & Hcount & _ & _ & Hdraws).
    rewrite unpicked_replicate in Hdraws.
    eexists _, _. split; [done|]. split; [destruct both_ends; lia|].
    split.
    { pose proof (repeat_limit_bounds n Hn).
      assert (end_wcount e ≤ n * n) by (destruct (end_conditions e); lia).
      destruct both_ends; lia. }
    right. eexists _, _. split; [done|].
    destruct (Hunif (pred (end_pos e))) as [H0 H1].
    pose proof (scale_bounds n _ H0 H1 Hn) as Hnewk. rewrite <- Hlast in Hnewk.
    split; [|split; [done|split]].
    + destruct both_ends; [|done].
      destruct (Hunif (S pos)) as [H0' H1'].
      by pose proof (scale_bounds n _ H0' H1' Hn).
    + intros [-> Hjk]. simpl in Hskip. apply Z.ltb_ge in Hskip. lia.
    + intros Hnb. rewrite Hb in Hnb. by rewrite Hok, Hnb.
Qed.

(** A property of the working copy that every move to end points that can
    be drawn preserves holds of the result of the loop, which returns. *)
Lemma rewire_loop_preserves unif p (both_ends self multiple undirected : bool) n
      (I : sp_mat → Prop) (C : Z * Z → Prop) indexes :
  unit_interval unif → (indexes = [] ∨ 1 ≤ n) →
  Forall C indexes →
  (∀ g (j k newj newk : Z),
     C (j, k) → I g →
     (if both_ends then 0 ≤ newj ≤ Z.max 0 (n - 2) else newj = j) →
     0 ≤ newk ≤ Z.max 0 (n - 2) →
     ¬ (undirected = true ∧ j < k) →
     I (move_edge undirected g j k newj newk)) →
  ∀ g pos, I g →
    ∃ g' pos',
      rewire_loop unif p both_ends self multiple undirected n indexes (g, pos)
        = Some (g', pos') ∧ I g'.
Proof.
  intros Hunif Hn HC Hmove g pos HI.
  apply (rewire_loop_invariant unif p both_ends self multiple undirected n
           (λ g _, I g) indexes); [|done].
  destruct Hn as [->|Hn]; [done|].
  eapply Forall_impl; [exact HC|]. intros [j k] Hjk g0 pos0 HI0.
  destruct (rewire_edge_outcome unif p both_ends self multiple undirected n j k g0 pos0
              Hunif Hn) as (g' & pos' & Hstep & _ & _ & Hcases).
  exists g', pos'. split; [done|].
  destruct Hcases as [[-> _]|(newj & newk & -> & Hnewj & Hnewk & Hskip & _)]; [done|].
  by apply Hmove.
Qed.

(** The same for a run in which no search ends by the [break]: the moves
    are to accepted targets. *)
Lemma rewire_loop_preserves_accepted unif p both_ends self multiple undirected n
      (I : sp_mat → Prop) indexes :
  unit_interval unif → (indexes = [] ∨ 1 ≤ n) →
  (∀ g j k newj newk,
     I g → acceptable self multiple undirected g newj newk = true →
     I (move_edge undirected g j k newj newk)) →
  ∀ g pos, I g →
    no_break unif p both_ends self multiple undirected n indexes (g, pos) = true →
    ∃ g' pos',
      rewire_loop unif p both_ends self multiple undirected n indexes (g, pos)
        = Some (g', pos') ∧ I g'.
Proof.
  intros Hunif Hn Hmove.
  induction indexes as [|[j k] indexes IH]; intros g pos HI Hnb;
    cbn [rewire_loop no_break] in *.
  - by exists g, pos.
  - destruct Hn as [|Hn]; [done|].
    destruct (rewire_edge_outcome unif p both_ends self multiple undirected n j k g pos
                Hunif Hn) as (g' & pos' & Hstep & _ & _ & Hcases).
    rewrite Hstep in *. simpl in *.
    apply andb_true_iff in Hnb as [Hb Hnb]. apply negb_true_iff in Hb.
    apply (IH (or_intror Hn)); [|done].
    destruct Hcases as [[-> _]|(newj & newk & -> & _ & _ & _ & Hok)]; [done|].
    apply Hmove; [done|]. by apply Hok.
Qed.

Lemma sparse_indexes_nonempty g :
  sparse_indexes g = [] ∨ 1 ≤ n_cols g.
Proof.
  destruct (sparse_indexes g) as [|[j k] l] eqn:E; [by left|right].
  pose proof (sparse_indexes_cols g) as H. rewrite E in H.
  by apply Forall_cons in H as [[H _] _].
Qed.

Lemma sparse_indexes_range g :
  Forall (λ jk, 0 ≤ jk.1 < n_rows g ∧ 0 ≤ jk.2 < n_cols g) (sparse_indexes g).
Proof.
  apply Forall_forall. intros [j k] H%elem_of_sparse_indexes. simpl. lia.
Qed.

Lemma dims_move_edge undirected g j k newj newk :
  n_rows (move_edge undirected g j k newj newk) = n_rows g ∧
  n_cols (move_edge undirected g j k newj newk) = n_cols g.
Proof. unfold move_edge. by destruct undirected. Qed.

Lemma well_formed_move_edge undirected g j k newj newk :
  n_rows g = n_cols g →
  0 ≤ j < n_cols g → 0 ≤ k < n_cols g → 0 ≤ newj < n_cols g → 0 ≤ newk < n_cols g →
  well_formed g → well_formed (move_edge undirected g j k newj newk).
Proof.
  intros Hsq Hj Hk Hnj Hnk Hg. unfold move_edge.
  destruct undirected;
    repeat first [apply well_formed_add_at | apply well_formed_set_at];
    rewrite ?n_rows_add_at, ?n_cols_add_at, ?n_rows_set_at, ?n_cols_set_at;
    first [done | lia].
Qed.

(** X9.  On a square matrix whose entries are in bounds, every write of the
    rewiring is in bounds: the call returns a matrix of the same dimensions
    whose stored entries all lie inside it, and none of them is zero. *)
Theorem X9_rewire_in_bounds (unif : nat → Q) (graph : sp_mat) (p : Q)
        (both_ends self multiple undirected : bool) :
  unit_interval unif →
  n_rows graph = n_cols graph → well_formed graph →
  ∃ newgraph draws,
    rewire_graph_cpp unif graph p both_ends self multiple undirected
      = Some (newgraph, draws) ∧
    n_rows newgraph = n_rows graph ∧ n_cols newgraph = n_cols graph ∧
    well_formed newgraph.
Proof.
  intros Hunif Hsq Hwf. unfold rewire_graph_cpp.
  destruct (rewire_loop_preserves unif p both_ends self multiple undirected
              (n_cols graph)
              (λ g, n_rows g = n_rows graph ∧ n_cols g = n_cols graph ∧ well_formed g)
              (λ jk, 0 ≤ jk.1 < n_rows graph ∧ 0 ≤ jk.2 < n_cols graph)
              (sparse_indexes graph) Hunif (sparse_indexes_nonempty graph)
              (sparse_indexes_range graph)) with (g := graph) (pos := 0%nat)
    as (g' & pos' & Hrun & HI); [|done|by exists g', pos'].
  intros g j k newj newk [Hj Hk] (Hr & Hc & Hg) Hnewj Hnewk _. simpl in Hj, Hk.
  destruct (dims_move_edge undirected g j k newj newk) as [-> ->].
  split; [done|]. split; [done|].
  apply well_formed_move_edge; try done; try lia.
  destruct both_ends; lia.
Qed.

Lemma well_formed_complete3 : well_formed complete3.
Proof.
  unfold well_formed, complete3. simpl.
  repeat (apply map_Forall_insert_2; [simpl; lia|]). apply map_Forall_empty.
Qed.

Lemma X9_witness :
  ∃ newgraph draws,
    rewire_graph_cpp thirds complete3 1 true true true false
      = Some (newgraph, draws) ∧
    n_rows newgraph = n_rows complete3 ∧ n_cols newgraph = n_cols complete3 ∧
    well_formed newgraph.
Proof.
  apply (X9_rewire_in_bounds thirds complete3 1 true true true false).
  - exact thirds_unit_interval.
  - done.
  - exact well_formed_complete3.
Defined.

(** X10.  With [undirected = true] a symmetric matrix stays symmetric,
    whatever the other flags, also when a search ends by the [break]. *)
Theorem X10_rewire_keeps_symmetry (unif : nat → Q) (graph : sp_mat) (p : Q)
        (both_ends self multiple : bool) :
  unit_interval unif → symmetric graph →
  ∃ newgraph draws,
    rewire_graph_cpp unif graph p both_ends self multiple true
      = Some (newgraph, draws) ∧
    symmetric newgraph.
Proof.
  intros Hunif Hsym. unfold rewire_graph_cpp.
  apply (rewire_loop_preserves unif p both_ends self multiple true (n_cols graph)
           symmetric (λ _, True) (sparse_indexes graph) Hunif
           (sparse_indexes_nonempty graph)); [|intros|done].
  - by apply Forall_true.
  - by apply symmetric_move_edge.
Qed.

Lemma X10_witness :
  ∃ newgraph draws,
    rewire_graph_cpp thirds mutual01 1 true true true true
      = Some (newgraph, draws) ∧
    symmetric newgraph.
Proof.
  apply (X10_rewire_keeps_symmetry thirds mutual01 1 true true true).
  - exact thirds_unit_interval.
  - exact symmetric_mutual01.
Defined.

Lemma row_sum_set_at g r c w r' :
  0 ≤ c < n_cols g →
  row_sum (set_at g r c w) r' =
  row_sum g r' + (if decide (r = r') then w - at_ g r c else 0).
Proof.
  intros Hc. unfold row_sum. rewrite n_cols_set_at.
  rewrite (sumZ_ext _ (λ c', at_ g r' c' +
                             (if decide (c' = c)
                              then (if decide (r = r') then w - at_ g r c else 0)
                              else 0))).
  - rewrite sumZ_plus, sumZ_single. rewrite (decide_True (P := 0 ≤ c < 0 + n_cols g)) by lia.
    done.
  - intros c' _. rewrite at_set_at.
    repeat case_decide; simplify_eq; first [done | lia].
Qed.

Lemma row_sum_add_at g r c w r' :
  0 ≤ c < n_cols g →
  row_sum (add_at g r c w) r' = row_sum g r' + (if decide (r = r') then w else 0).
Proof.
  intros Hc. unfold add_at. rewrite row_sum_set_at by done. case_decide; lia.
Qed.

Lemma row_sum_move_edge g j k newk r :
  0 ≤ k < n_cols g → 0 ≤ newk < n_cols g →
  row_sum (move_edge false g j k j newk) r = row_sum g r.
Proof.
  intros Hk Hnewk. unfold move_edge.
  rewrite row_sum_add_at, row_sum_set_at by (rewrite ?n_cols_set_at; done).
  case_decide; lia.
Qed.

(** The sums of the rows through a directed rewiring of the targets. *)
Lemma rewire_row_sums unif graph p self multiple :
  unit_interval unif →
  ∃ newgraph draws,
    rewire_graph_cpp unif graph p false self multiple false
      = Some (newgraph, draws) ∧
    ∀ r, row_sum newgraph r = row_sum graph r.
Proof.
  intros Hunif. unfold rewire_graph_cpp.
  destruct (rewire_loop_preserves unif p false self multiple false (n_cols graph)
              (λ g, n_cols g = n_cols graph ∧ ∀ r, row_sum g r = row_sum graph r)
              (λ jk, 0 ≤ jk.1 < n_rows graph ∧ 0 ≤ jk.2 < n_cols graph)
              (sparse_indexes graph) Hunif (sparse_indexes_nonempty graph)
              (sparse_indexes_range graph)) with (g := graph) (pos := 0%nat)
    as (g' & pos' & Hrun & _ & HI); [|done|by exists g', pos'].
  intros g j k newj newk [_ Hk] [Hc Hrows] -> Hnewk _. simpl in Hk.
  split; [done|]. intros r. rewrite row_sum_move_edge by lia. apply Hrows.
Qed.

(** X11.  With [both_ends = false] and [undirected = false] an edge keeps
    its source: the sum of every row, the weighted out-degree of every
    vertex, is the same before and after. *)
Theorem X11_rewire_keeps_row_sums (unif : nat → Q) (graph : sp_mat) (p : Q)
        (self multiple : bool) :
  unit_interval unif →
  ∃ newgraph draws,
    rewire_graph_cpp unif graph p false self multiple false
      = Some (newgraph, draws) ∧
    ∀ r, row_sum newgraph r = row_sum graph r.
Proof. apply rewire_row_sums. Qed.

Lemma X11_witness :
  ∃ newgraph draws,
    rewire_graph_cpp thirds complete3 1 false true true false
      = Some (newgraph, draws) ∧
    ∀ r, row_sum newgraph r = row_sum complete3 r.
Proof.
  apply (X11_rewire_keeps_row_sums thirds complete3 1 true true).
  exact thirds_unit_interval.
Defined.

Lemma nonnegative_move_edge undirected g j k newj newk :
  nonnegative g → nonnegative (move_edge undirected g j k newj newk).
Proof.
  intros Hg a b. rewrite at_move_edge.
  pose proof (Hg a b). pose proof (Hg j k).
  destruct undirected; simpl;
    repeat case_decide; repeat case_bool_decide; lia.
Qed.

(** X12.  Rewiring creates no negative weight: when no entry of the input
    is negative, no entry of the result is. *)
Theorem X12_rewire_keeps_nonnegative (unif : nat → Q) (graph : sp_mat) (p : Q)
        (both_ends self multiple undirected : bool) :
  unit_interval unif → nonnegative graph →
  ∃ newgraph draws,
    rewire_graph_cpp unif graph p both_ends self multiple undirected
      = Some (newgraph, draws) ∧
    nonnegative newgraph.
Proof.
  intros Hunif Hg. unfold rewire_graph_cpp.
  apply (rewire_loop_preserves unif p both_ends self multiple undirected (n_cols graph)
           nonnegative (λ _, True) (sparse_indexes graph) Hunif
           (sparse_indexes_nonempty graph)); [|intros|done].
  - by apply Forall_true.
  - by apply nonnegative_move_edge.
Qed.

Lemma nonnegative_mutual01 : nonnegative mutual01.
Proof.
  intros r c. unfold mutual01. rewrite !at_set_at, !at_sp_zeros.
  repeat case_decide; lia.
Qed.

Lemma X12_witness :
  ∃ newgraph draws,
    rewire_graph_cpp thirds mutual01 1 true false false true
      = Some (newgraph, draws) ∧
    nonnegative newgraph.
Proof.
  apply (X12_rewire_keeps_nonnegative thirds mutual01 1 true false false true).
  - exact thirds_unit_interval.
  - exact nonnegative_mutual01.
Defined.

Lemma rewire_loop_draws_bound unif p both_ends self multiple undirected n indexes :
  unit_interval unif → (indexes = [] ∨ 1 ≤ n) →
  ∀ g pos, ∃ g' pos',
    rewire_loop unif p both_ends self multiple undirected n indexes (g, pos)
      = Some (g', pos') ∧
    Z.of_nat pos' ≤ Z.of_nat pos + Z.of_nat (length indexes) * (n * n + n + 2).
Proof.
  intros Hunif Hn. induction indexes as [|[j k] indexes IH]; intros g pos;
    cbn [rewire_loop length].
  - exists g, pos. split; [done|lia].
  - destruct Hn as [|Hn]; [done|].
    destruct (rewire_edge_outcome unif p both_ends self multiple undirected n j k g pos
                Hunif Hn) as (g1 & pos1 & -> & _ & Hle & _). simpl.
    destruct (IH (or_intror Hn) g1 pos1) as (g' & pos' & -> & Hle').
    exists g', pos'. split; [done|]. rewrite Nat2Z.inj_succ. nia.
Qed.

(** X13.  The number of values taken from the generator is bounded: at most
    [n*n + n + 2] for each candidate, one for the test against [p], one for
    [newj], and in the search at most [n] fresh values and [n*n] repeats. *)
Theorem X13_rewire_draws_bounded (unif : nat → Q) (graph : sp_mat) (p : Q)
        (both_ends self multiple undirected : bool) :
  unit_interval unif →
  ∃ newgraph draws,
    rewire_graph_cpp unif graph p both_ends self multiple undirected
      = Some (newgraph, draws) ∧
    Z.of_nat draws ≤
      Z.of_nat (length (sparse_indexes graph)) *
      (n_cols graph * n_cols graph + n_cols graph + 2).
Proof.
  intros Hunif. unfold rewire_graph_cpp.
  destruct (rewire_loop_draws_bound unif p both_ends self multiple undirected
              (n_cols graph) (sparse_indexes graph) Hunif
              (sparse_indexes_nonempty graph) graph 0%nat)
    as (g' & pos' & Hrun & Hle).
  exists g', pos'. split; [done|lia].
Qed.

Lemma X13_witness :
  ∃ newgraph draws,
    rewire_graph_cpp thirds complete3 1 true false false false
      = Some (newgraph, draws) ∧
    Z.of_nat draws ≤
      Z.of_nat (length (sparse_indexes complete3)) *
      (n_cols complete3 * n_cols complete3 + n_cols complete3 + 2).
Proof.
  apply (X13_rewire_draws_bounded thirds complete3 1 true false false false).
  exact thirds_unit_interval.
Defined.

Lemma rewire_loop_never unif p both_ends self multiple undirected n indexes :
  (∀ i, (p < unif i)%Q) →
  ∀ g pos,
    rewire_loop unif p both_ends self multiple undirected n indexes (g, pos)
      = Some (g, (pos + length indexes)%nat).
Proof.
  intros Hp. induction indexes as [|jk indexes IH]; intros g pos;
    cbn [rewire_loop length].
  - do 2 f_equal. lia.
  - assert (rewire_edge unif p both_ends self multiple undirected n jk (g, pos)
            = Some (g, S pos)) as ->.
    { unfold rewire_edge, unif_rand.
      destruct (Qle_bool (unif pos) p) eqn:E; [|done].
      apply Qle_bool_iff in E. apply Qle_not_lt in E. destruct E. apply Hp. }
    simpl. rewrite IH. do 2 f_equal. lia.
Qed.

(** X14.  A negative [p] is not rejected and never triggers a rewiring:
    with draws in [[0,1)] the input graph is returned as it is, after one
    draw for each candidate. *)
Theorem X14_rewire_negative_p (unif : nat → Q) (graph : sp_mat) (p : Q)
        (both_ends self multiple undirected : bool) :
  unit_interval unif → (p < 0)%Q →
  rewire_graph_cpp unif graph p both_ends self multiple undirected
    = Some (graph, length (sparse_indexes graph)).
Proof.
  intros Hunif Hp. unfold rewire_graph_cpp. rewrite rewire_loop_never; [done|].
  intros i. destruct (Hunif i) as [H0 _]. by eapply Qlt_le_trans.
Qed.

Lemma X14_witness :
  rewire_graph_cpp thirds complete3 (-1 # 2) true false false false
    = Some (complete3, length (sparse_indexes complete3)).
Proof.
  apply (X14_rewire_negative_p thirds complete3 (-1 # 2) true false false false).
  - exact thirds_unit_interval.
  - by vm_compute.
Defined.

(** X15.  A matrix without non-zero entry has no candidate: it is returned
    as it is and the generator is not used. *)
Theorem X15_rewire_empty (unif : nat → Q) (graph : sp_mat) (p : Q)
        (both_ends self multiple undirected : bool) :
  (∀ r c, 0 ≤ r < n_rows graph → 0 ≤ c < n_cols graph → at_ graph r c = 0) →
  rewire_graph_cpp unif graph p both_ends self multiple undirected
    = Some (graph, 0%nat).
Proof.
  intros Hz. unfold rewire_graph_cpp.
  assert (sparse_indexes graph = []) as ->; [|done].
  apply elem_of_nil_inv. intros [j k] (Hj & Hk & Hat)%elem_of_sparse_indexes.
  by apply Hat, Hz.
Qed.

Lemma X15_witness :
  rewire_graph_cpp thirds (sp_zeros 4 4) 1 true false false true
    = Some (sp_zeros 4 4, 0%nat).
Proof.
  apply (X15_rewire_empty thirds (sp_zeros 4 4) 1 true false false true).
  intros r c _ _. apply at_sp_zeros.
Defined.

Lemma acceptable_single self undirected g newj newk :
  acceptable self false undirected g newj newk = true → at_ g newj newk = 0.
Proof.
  unfold acceptable. simpl. intros H.
  destruct (Z.eqb_spec (at_ g newj newk) 0); [done|].
  simpl in H. by rewrite andb_false_r in H.
Qed.

Lemma acceptable_undirected self multiple g newj newk :
  acceptable self multiple true g newj newk = true →
  newk ≤ newj ∧ (self = false → newj ≠ newk).
Proof.
  unfold acceptable. simpl. intros H.
  apply andb_true_iff in H as [H _]. apply andb_true_iff in H as [H1 H2].
  apply negb_true_iff, Z.ltb_ge in H1. split; [done|].
  intros ->. simpl in H2. apply negb_true_iff in H2. by apply Z.eqb_neq in H2.
Qed.

Lemma simple_move_edge self undirected g j k newj newk :
  simple g →
  (undirected = true → self = false ∧ symmetric g) →
  acceptable self false undirected g newj newk = true →
  simple (move_edge undirected g j k newj newk).
Proof.
  intros Hs Hu Hok a b. rewrite at_move_edge.
  pose proof (acceptable_single _ _ _ _ _ Hok) as Hfree.
  pose proof (Hs a b). pose proof (Hs j k).
  destruct undirected; simpl.
  - destruct Hu as [-> Hsym]; [done|].
    pose proof (acceptable_undirected _ _ _ _ _ Hok) as [_ Hne].
    specialize (Hne eq_refl).
    assert (at_ g newk newj = 0) as Hfree' by (by rewrite <- Hsym).
    repeat case_decide; repeat case_bool_decide; simplify_eq; lia.
  - repeat case_decide; simplify_eq; lia.
Qed.

(** X16.  With [multiple = false] a graph without multiple edges stays
    one, as long as no search ends by the [break]: when every entry of the
    input is 0 or 1, so is every entry of the result.  For
    [undirected = true] this is for a symmetric input and [self = false]
    (a loop made from an undirected edge would hold twice its weight). *)
Theorem X16_rewire_keeps_simple (unif : nat → Q) (graph : sp_mat) (p : Q)
        (both_ends self undirected : bool) :
  unit_interval unif → simple graph →
  (undirected = true → self = false ∧ symmetric graph) →
  no_break unif p both_ends self false undirected (n_cols graph)
           (sparse_indexes graph) (graph, 0%nat) = true →
  ∃ newgraph draws,
    rewire_graph_cpp unif graph p both_ends self false undirected
      = Some (newgraph, draws) ∧
    simple newgraph.
Proof.
  intros Hunif Hs Hu Hnb. unfold rewire_graph_cpp.
  destruct (rewire_loop_preserves_accepted unif p both_ends self false undirected
              (n_cols graph)
              (λ g, simple g ∧ (undirected = true → symmetric g))
              (sparse_indexes graph) Hunif (sparse_indexes_nonempty graph))
    with (g := graph) (pos := 0%nat) as (g' & pos' & Hrun & Hs' & _); try done.
  - intros g j k newj newk [Hg Hsym] Hok. split.
    + apply (simple_move_edge self); [done| |done].
      intros E. split; [by apply Hu|by apply Hsym].
    + intros ->. apply symmetric_move_edge. by apply Hsym.
  - split; [done|]. intros E. by apply Hu.
  - by exists g', pos'.
Qed.

Lemma symmetric_mutual23 : symmetric mutual23.
Proof.
  intros i j. unfold mutual23. rewrite !at_set_at, !at_sp_zeros.
  repeat case_decide; simplify_eq; done.
Qed.

Lemma simple_mutual23 : simple mutual23.
Proof.
  intros r c. unfold mutual23. rewrite !at_set_at, !at_sp_zeros.
  repeat case_decide; auto.
Qed.

Lemma X16_witness :
  ∃ newgraph draws,
    rewire_graph_cpp thirds mutual23 1 false false false true
      = Some (newgraph, draws) ∧
    simple newgraph.
Proof.
  apply (X16_rewire_keeps_simple thirds mutual23 1 false false true).
  - exact thirds_unit_interval.
  - exact simple_mutual23.
  - intros _. split; [done|exact symmetric_mutual23].
  - by vm_compute.
Defined.

(** The sum of the entries through the rewiring, with the symmetry that the
    undirected case needs and keeps. *)
Lemma rewire_conserves unif graph p both_ends self multiple undirected :
  unit_interval unif →
  (undirected = true → symmetric graph ∧ zero_diagonal graph) →
  ∃ newgraph draws,
    rewire_graph_cpp unif graph p both_ends self multiple undirected
      = Some (newgraph, draws) ∧
    accu newgraph = accu graph ∧ (undirected = true → symmetric newgraph).
Proof.
  intros Hunif Hund. unfold rewire_graph_cpp.
  apply (rewire_loop_preserves unif p both_ends self multiple undirected (n_cols graph)
           (λ g, accu g = accu graph ∧ (undirected = true → symmetric g))
           (λ jk, at_ graph jk.1 jk.2 ≠ 0)
           (sparse_indexes graph) Hunif (sparse_indexes_nonempty graph)).
  - eapply Forall_impl; [apply sparse_indexes_cols|]. by intros jk [_ H].
  - intros g j k newj newk Hjk [Hacc Hsym] _ _ _. simpl in Hjk. split.
    + rewrite accu_move_edge; [done|]. intros Hu. split; [by apply Hsym|].
      destruct (Hund Hu) as [_ Hz]. intros ->. by rewrite Hz in Hjk.
    + intros ->. apply symmetric_move_edge. by apply Hsym.
  - split; [done|]. intros Hu. by apply Hund.
Qed.

(** X17.  The undirected generator: rewiring the undirected lattice with
    [undirected = true] returns a symmetric matrix with the total weight of
    the lattice, whatever [p] and the other flags. *)
Theorem X17_rewired_lattice_undirected (unif : nat → Q) (n k : Z) (p : Q)
        (both_ends self multiple : bool) :
  unit_interval unif → 0 ≤ k ≤ n - 1 →
  ∃ g newgraph draws,
    ring_lattice n k true = Value g ∧
    rewire_graph_cpp unif g p both_ends self multiple true = Some (newgraph, draws) ∧
    symmetric newgraph ∧
    accu newgraph = 2 * n * (if 1 <? k then k / 2 else k).
Proof.
  intros Hunif Hk.
  destruct (at_ring_lattice n k true Hk) as (g & Hg & _ & _ & Hat).
  assert (accu g = 2 * n * (if 1 <? k then k / 2 else k)) as Hacc.
  { rewrite ring_lattice_value in Hg by lia. injection Hg as <-.
    pose proof (adjust_k_bounds n k true Hk). unfold adjust_k in *.
    rewrite accu_ring_loops, accu_sp_zeros by lia.
    destruct (1 <? k); rewrite ?half_div; lia. }
  destruct (rewire_conserves unif g p both_ends self multiple true Hunif)
    as (g' & d & Hrun & Hacc' & Hsym).
  - intros _. split.
    + intros i j. rewrite !Hat. lia.
    + intros i. rewrite Hat, on_ring_diag. done.
  - exists g, g', d. split; [done|]. split; [done|]. split; [by apply Hsym|lia].
Qed.

Lemma X17_witness :
  ∃ g newgraph draws,
    ring_lattice 14 2 true = Value g ∧
    rewire_graph_cpp thirteenths g 1 false false false true = Some (newgraph, draws) ∧
    symmetric newgraph ∧
    accu newgraph = 2 * 14 * (if 1 <? 2 then 2 / 2 else 2).
Proof.
  apply (X17_rewired_lattice_undirected thirteenths 14 2 1 false false false).
  - intros i. unfold thirteenths, Qle, Qlt. simpl.
    pose proof (Nat.mod_upper_bound (i * 7) 13). lia.
  - lia.
Defined.

(** X18.  The directed generator: rewiring the directed lattice with
    [both_ends = false] and [undirected = false] leaves every vertex with
    weighted out-degree [k], and the total weight [n*k]. *)
Theorem X18_rewired_lattice_directed (unif : nat → Q) (n k : Z) (p : Q)
        (self multiple : bool) :
  unit_interval unif → 0 ≤ k ≤ n - 1 →
  ∃ g newgraph draws,
    ring_lattice n k false = Value g ∧
    rewire_graph_cpp unif g p false self multiple false = Some (newgraph, draws) ∧
    (∀ v, 0 ≤ v < n → row_sum newgraph v = k) ∧
    accu newgraph = n * k.
Proof.
  intros Hunif Hk.
  destruct (at_ring_lattice n k false Hk) as (g & Hg & _ & Hc & Hat).
  simpl in Hat.
  assert (accu g = n * k) as Hacc.
  { rewrite ring_lattice_value in Hg by lia. injection Hg as <-.
    simpl adjust_k. rewrite accu_ring_loops, accu_sp_zeros by lia. lia. }
  destruct (rewire_conserves unif g p false self multiple false Hunif)
    as (g1 & d1 & Hrun1 & Hacc1 & _); [done|].
  destruct (rewire_row_sums unif g p self multiple Hunif)
    as (g2 & d2 & Hrun2 & Hrows).
  rewrite Hrun1 in Hrun2. injection Hrun2 as <- <-.
  exists g, g1, d1. split; [done|]. split; [done|]. split; [|lia].
  intros v Hv. rewrite Hrows. unfold row_sum. rewrite Hc.
  etrans; [|by apply (count_successors n k v)].
  apply sumZ_ext. intros c _. rewrite Hat. lia.
Qed.

Lemma X18_witness :
  ∃ g newgraph draws,
    ring_lattice 6 2 false = Value g ∧
    rewire_graph_cpp thirds g 1 false true false false = Some (newgraph, draws) ∧
    (∀ v, 0 ≤ v < 6 → row_sum newgraph v = 2) ∧
    accu newgraph = 6 * 2.
Proof.
  apply (X18_rewired_lattice_directed thirds 6 2 1 true false).
  - exact thirds_unit_interval.
  - lia.
Defined.

(** With [self = true], [multiple = true] and [undirected = false] no test
    of the search can fail: a candidate takes at most two draws, three with
    [both_ends], and its search does not end by the [break]. *)
Lemma rewire_edge_unconstrained unif p both_ends n jk g pos :
  ∃ g' pos',
    rewire_edge unif p both_ends true true false n jk (g, pos) = Some (g', pos') ∧
    (pos' ≤ pos + (if both_ends then 3 else 2))%nat ∧
    broke_out unif p both_ends true true false n jk (g, pos) = false.
Proof.
  destruct jk as [j k]. unfold rewire_edge, broke_out, unif_rand.
  destruct (Qle_bool (unif pos) p); simpl.
  2:{ eexists _, _. split; [done|]. split; [destruct both_ends; lia|done]. }
  unfold new_ends, search_fuel. destruct both_ends.
  - rewrite draw_vertex_eq, search_S. cbv zeta. rewrite picked_at_replicate.
    unfold acceptable. simpl. eexists _, _. split; [done|]. split; [lia|done].
  - rewrite search_S. cbv zeta. rewrite picked_at_replicate.
    unfold acceptable. simpl. eexists _, _. split; [done|]. split; [lia|done].
Qed.

Lemma rewire_loop_unconstrained unif p both_ends n indexes :
  ∀ g pos, ∃ g' pos',
    rewire_loop unif p both_ends true true false n indexes (g, pos) = Some (g', pos') ∧
    (pos' ≤ pos + (if both_ends then 3 else 2) * length indexes)%nat ∧
    no_break unif p both_ends true true false n indexes (g, pos) = true.
Proof.
  induction indexes as [|jk indexes IH]; intros g pos;
    cbn [rewire_loop no_break length].
  - exists g, pos. split; [done|]. split; [lia|done].
  - destruct (rewire_edge_unconstrained unif p both_ends n jk g pos)
      as (g1 & pos1 & -> & Hle & ->). simpl.
    destruct (IH g1 pos1) as (g' & pos' & -> & Hle' & ->).
    exists g', pos'. split; [done|]. split; [|done].
    destruct both_ends; lia.
Qed.

(** X19.  When loops and multiple edges are allowed in a directed graph,
    nothing is ever rejected: no search ends by the [break], every rewired
    edge goes to the first vertex drawn, and the run takes at most two
    values of the generator for each candidate, three with [both_ends]. *)
Theorem X19_rewire_unconstrained (unif : nat → Q) (graph : sp_mat) (p : Q)
        (both_ends : bool) :
  unit_interval unif →
  ∃ newgraph draws,
    rewire_graph_cpp unif graph p both_ends true true false
      = Some (newgraph, draws) ∧
    no_break unif p both_ends true true false (n_cols graph)
             (sparse_indexes graph) (graph, 0%nat) = true ∧
    (draws ≤ (if both_ends then 3 else 2) * length (sparse_indexes graph))%nat.
Proof.
  intros _. unfold rewire_graph_cpp.
  destruct (rewire_loop_unconstrained unif p both_ends (n_cols graph)
              (sparse_indexes graph) graph 0%nat) as (g' & pos' & Hrun & Hle & Hnb).
  exists g', pos'. split; [done|]. split; [done|lia].
Qed.

Lemma X19_witness :
  ∃ newgraph draws,
    rewire_graph_cpp thirds complete3 1 true true true false
      = Some (newgraph, draws) ∧
    no_break thirds 1 true true true false (n_cols complete3)
             (sparse_indexes complete3) (complete3, 0%nat) = true ∧
    (draws ≤ (if true then 3 else 2) * length (sparse_indexes complete3))%nat.
Proof.
  apply (X19_rewire_unconstrained thirds complete3 1 true).
  exact thirds_unit_interval.
Defined.

(** X20.  What the scaling by [n - 1] of lines 99 and 108 means for a run:
    from two vertices on, a directed rewiring never adds weight to the last
    column.  Each of its cells is either as in the input or has been
    emptied. *)
Theorem X20_rewire_last_column (unif : nat → Q) (graph : sp_mat) (p : Q)
        (both_ends self multiple : bool) :
  unit_interval unif → 2 ≤ n_cols graph →
  ∃ newgraph draws,
    rewire_graph_cpp unif graph p both_ends self multiple false
      = Some (newgraph, draws) ∧
    ∀ r, at_ newgraph r (n_cols graph - 1) = at_ graph r (n_cols graph - 1) ∨
         at_ newgraph r (n_cols graph - 1) = 0.
Proof.
  intros Hunif Hn. unfold rewire_graph_cpp.
  apply (rewire_loop_preserves unif p both_ends self multiple false (n_cols graph)
           (λ g, ∀ r, at_ g r (n_cols graph - 1) = at_ graph r (n_cols graph - 1) ∨
                      at_ g r (n_cols graph - 1) = 0)
           (λ _, True) (sparse_indexes graph) Hunif (sparse_indexes_nonempty graph)).
  - by apply Forall_true.
  - intros g j k newj newk _ HI _ Hnewk _ r. rewrite at_move_edge. simpl.
    destruct (HI r); repeat case_decide; simplify_eq; lia.
  - intros r. by left.
Qed.

Lemma X20_witness :
  ∃ newgraph draws,
    rewire_graph_cpp thirds complete3 1 true true true false
      = Some (newgraph, draws) ∧
    ∀ r, at_ newgraph r (n_cols complete3 - 1) = at_ complete3 r (n_cols complete3 - 1) ∨
         at_ newgraph r (n_cols complete3 - 1) = 0.
Proof.
  apply (X20_rewire_last_column thirds complete3 1 true true true).
  - exact thirds_unit_interval.
  - done.
Defined.
